(** * prefer-inline-type-parameters: the rule engine, embedded and verified

    Shallow embedding of [src/lib/prefer-inline-type-parameters.js].

    The rule receives a syntax tree whose nodes are JavaScript objects with
    [parent] back-references and compares nodes by identity.  The embedding
    keeps the objects in an arena: a node's identity is its index, every
    field that holds a node holds an index, and the arena lists the nodes in
    the order in which the traversal enters them (depth first, source order),
    which is the order in which the visitors run. *)

From Stdlib Require Import List String Ascii Arith Bool Lia Sorted.
Import ListNotations.
Open Scope string_scope.
Open Scope list_scope.
Open Scope nat_scope.

Set Implicit Arguments.

(* ================================================================== *)
(** * JavaScript [Map]: keyed storage that iterates in insertion order *)
(* ================================================================== *)

Module JSMap.

Section Ops.
Variable V : Type.

(** Entries in insertion order; [set] never creates a second entry for a
    key, so the keys of a map built from [empty] are distinct. *)
Definition t := list (string * V).

Definition empty : t := [].

Fixpoint get (m : t) (k : string) : option V :=
  match m with
  | [] => None
  | (k', v) :: m' => if String.eqb k' k then Some v else get m' k
  end.

Definition has (m : t) (k : string) : bool :=
  match get m k with Some _ => true | None => false end.

(** [m.set(k, v)]: overwrite in place, or append a new entry. *)
Fixpoint set (m : t) (k : string) (v : V) : t :=
  match m with
  | [] => [(k, v)]
  | (k', v') :: m' =>
      if String.eqb k' k then (k', v) :: m' else (k', v') :: set m' k v
  end.

Definition entries (m : t) : list (string * V) := m.

Definition keys (m : t) : list string := map fst m.

End Ops.

End JSMap.

Arguments JSMap.empty {V}.

(* ================================================================== *)
(** * The syntax tree                                                   *)
(* ================================================================== *)

Definition NodeId := nat.

(** Source text: a JavaScript string, indexed by code unit. *)
Definition Text := list ascii.

Definition LF : ascii := "010"%char.
Definition CR : ascii := "013"%char.

(** [node.typeName] of a type reference: an identifier, or one of the other
    entity names ([A.B], [this]) which the rule leaves alone. *)
Inductive EntityName :=
| IdentifierName (name : string)
| TSQualifiedName
| ThisExpression.

(** The node kinds the rule consults, each with the fields the rule reads;
    [typeParameters] records whether the field is present.  Every other
    kind is [OtherNode] with its [type] tag. *)
Inductive NodeKind :=
| Program
| TSTypeAliasDeclaration (id : string) (typeParameters : bool)
                         (typeAnnotation : NodeId)
| TSInterfaceDeclaration (id : string) (typeParameters : bool)
                         (body : NodeId)
| TSTypeReference (typeName : EntityName)
| TSTypeAnnotation (typeAnnotation : NodeId)
| ObjectPattern
| ArrayPattern
| Identifier (name : string)
| AssignmentPattern
| FunctionDeclaration (params : list NodeId)
| FunctionExpression (params : list NodeId)
| ArrowFunctionExpression (params : list NodeId)
| VariableDeclarator (init : option NodeId)
| ExportNamedDeclaration
| ExportDefaultDeclaration
| OtherNode (type : string).

Record Node := mkNode {
  kind : NodeKind;
  parent : option NodeId;
  range : nat * nat
}.

(** [sourceCode]: the arena, the program node ([sourceCode.ast]) and the
    text ([sourceCode.getText()]). *)
Record SourceCode := mkSourceCode {
  nodes : list Node;
  ast : NodeId;
  text : Text
}.

Definition get_node (sc : SourceCode) (i : NodeId) : option Node :=
  nth_error (nodes sc) i.

Definition kind_of (sc : SourceCode) (i : NodeId) : option NodeKind :=
  option_map kind (get_node sc i).

Definition parent_of (sc : SourceCode) (i : NodeId) : option NodeId :=
  match get_node sc i with Some n => parent n | None => None end.

(** [node.range]; an index outside the arena has no counterpart in the
    source (a field holds the object itself) and reads as the empty range. *)
Definition range_of (sc : SourceCode) (i : NodeId) : nat * nat :=
  match get_node sc i with Some n => range n | None => (0, 0) end.

(** [text.slice(a, b)] *)
Definition slice (a b : nat) (t : Text) : Text := firstn (b - a) (skipn a t).

(** [sourceCode.getText(node)] *)
Definition getText (sc : SourceCode) (i : NodeId) : Text :=
  slice (fst (range_of sc i)) (snd (range_of sc i)) (text sc).

(* ================================================================== *)
(** * The rule's state and its visitors                                 *)
(* ================================================================== *)

Record State := mkState {
  typeUsageCount : JSMap.t nat;
  typeDefinitions : JSMap.t NodeId;
  typeReferences : JSMap.t (list NodeId)
}.

Definition create : State := mkState JSMap.empty JSMap.empty JSMap.empty.

(** Body shared by the [TSTypeAliasDeclaration] and [TSInterfaceDeclaration]
    visitors, which are the same statement for statement. *)
Definition record_declaration (st : State) (node : NodeId)
    (typeName : string) (typeParameters : bool) : State :=
  if typeParameters then st
  else
    let defs := JSMap.set (typeDefinitions st) typeName node in
    let counts :=
      if negb (JSMap.has (typeUsageCount st) typeName)
      then JSMap.set (typeUsageCount st) typeName 0
      else typeUsageCount st in
    mkState counts defs (typeReferences st).

Definition visit_TSTypeAliasDeclaration (st : State) (node : NodeId)
    (id : string) (typeParameters : bool) : State :=
  record_declaration st node id typeParameters.

Definition visit_TSInterfaceDeclaration (st : State) (node : NodeId)
    (id : string) (typeParameters : bool) : State :=
  record_declaration st node id typeParameters.

(** [m.get(k) || 0] *)
Definition count_or_zero (m : JSMap.t nat) (k : string) : nat :=
  match JSMap.get m k with Some c => c | None => 0 end.

(** The list stored for [k], read as empty when there is no entry. *)
Definition refs_or_nil (m : JSMap.t (list NodeId)) (k : string)
  : list NodeId :=
  match JSMap.get m k with Some l => l | None => [] end.

Definition visit_TSTypeReference (st : State) (node : NodeId)
    (typeName : EntityName) : State :=
  match typeName with
  | IdentifierName name =>
      let currentCount := count_or_zero (typeUsageCount st) name in
      let counts := JSMap.set (typeUsageCount st) name (currentCount + 1) in
      let refs0 :=
        if negb (JSMap.has (typeReferences st) name)
        then JSMap.set (typeReferences st) name []
        else typeReferences st in
      let refs := JSMap.set refs0 name (refs_or_nil refs0 name ++ [node]) in
      mkState counts (typeDefinitions st) refs
  | _ => st
  end.

(** The traversal calls the visitor registered for the node's kind. *)
Definition visit (st : State) (node : NodeId) (n : Node) : State :=
  match kind n with
  | TSTypeAliasDeclaration id tp _ => visit_TSTypeAliasDeclaration st node id tp
  | TSInterfaceDeclaration id tp _ => visit_TSInterfaceDeclaration st node id tp
  | TSTypeReference tn => visit_TSTypeReference st node tn
  | _ => st
  end.

(** State after the traversal has entered the nodes [start, start+1, ...]
    listed in [ns]. *)
Fixpoint traverse_from (start : NodeId) (ns : list Node) (st : State)
  : State :=
  match ns with
  | [] => st
  | n :: ns' => traverse_from (S start) ns' (visit st start n)
  end.

(** State once the first [k] nodes have been entered. *)
Definition traverse_upto (sc : SourceCode) (k : nat) : State :=
  traverse_from 0 (firstn k (nodes sc)) create.

(** State when [Program:exit] runs. *)
Definition traverse (sc : SourceCode) : State :=
  traverse_from 0 (nodes sc) create.

(* ================================================================== *)
(** * Helper functions of the rule                                      *)
(* ================================================================== *)

(** [params.includes(parent)], and also [params.some((p) => p === parent)]:
    both compare node objects by identity. *)
Definition includes (params : list NodeId) (p : NodeId) : bool :=
  existsb (Nat.eqb p) params.

(** [init?.type === "FunctionExpression" || init?.type ===
    "ArrowFunctionExpression"], giving [init.params] when it holds. *)
Definition init_function_params (sc : SourceCode) (init : option NodeId)
  : option (list NodeId) :=
  match init with
  | Some i =>
      match kind_of sc i with
      | Some (FunctionExpression ps) => Some ps
      | Some (ArrowFunctionExpression ps) => Some ps
      | _ => None
      end
  | None => None
  end.

(** One iteration of the inner [while (ancestor)] loop of
    [isInFunctionParameter]: [Some b] when the iteration executes
    [return b], [None] when it falls through to [ancestor = ancestor.parent].
    Both inner loops of the source run this body (one with [includes], the
    other with [some]); [annotated] is the node the source calls [parent],
    the one the annotation is attached to. *)
Definition ancestor_body (sc : SourceCode) (an : Node) (annotated : NodeId)
  : option bool :=
  match kind an with
  | FunctionDeclaration ps => Some (includes ps annotated)
  | FunctionExpression ps => Some (includes ps annotated)
  | ArrowFunctionExpression ps => Some (includes ps annotated)
  | VariableDeclarator init =>
      match init_function_params sc init with
      | Some ps => Some (includes ps annotated)
      | None => None
      end
  | _ => None
  end.

(** The inner loop: [Some b] when it returns [b], [None] when it runs to the
    end of the parent chain.  [fuel] bounds the number of iterations. *)
Fixpoint ancestor_loop (fuel : nat) (sc : SourceCode)
    (ancestor : option NodeId) (annotated : NodeId) : option bool :=
  match fuel with
  | O => None
  | S fuel' =>
      match ancestor with
      | None => None
      | Some a =>
          match get_node sc a with
          | None => None
          | Some an =>
              match ancestor_body sc an annotated with
              | Some b => Some b
              | None => ancestor_loop fuel' sc (parent an) annotated
              end
          end
      end
  end.

(** The block guarded by [current.type === "TSTypeAnnotation"]: [Some b]
    when one of its two inner loops returns [b], [None] when control
    reaches [current = current.parent]. *)
Definition annotation_body (sc : SourceCode) (cn : Node) : option bool :=
  match parent cn with
  | Some p =>
      match kind_of sc p with
      | Some ObjectPattern =>
          ancestor_loop (List.length (nodes sc)) sc (parent_of sc p) p
      | Some ArrayPattern =>
          ancestor_loop (List.length (nodes sc)) sc (parent_of sc p) p
      | Some (Identifier _) =>
          ancestor_loop (List.length (nodes sc)) sc (parent_of sc p) p
      | _ => None
      end
  | None => None
  end.

(** One iteration of the outer [while (current)] loop. *)
Definition current_body (sc : SourceCode) (cn : Node) : option bool :=
  match kind cn with
  | TSTypeAnnotation _ => annotation_body sc cn
  | _ => None
  end.

(** The outer [while (current)] loop of [isInFunctionParameter]. *)
Fixpoint current_loop (fuel : nat) (sc : SourceCode)
    (current : option NodeId) : bool :=
  match fuel with
  | O => false
  | S fuel' =>
      match current with
      | None => false
      | Some c =>
          match get_node sc c with
          | None => false
          | Some cn =>
              match current_body sc cn with
              | Some b => b
              | None => current_loop fuel' sc (parent cn)
              end
          end
      end
  end.

(** A parent chain of a tree in the arena has at most [length (nodes sc)]
    nodes, which is the fuel given to the loops. *)
Definition isInFunctionParameter (sc : SourceCode) (node : NodeId) : bool :=
  current_loop (List.length (nodes sc)) sc (Some node).

Definition isExported (sc : SourceCode) (node : NodeId) : bool :=
  match parent_of sc node with
  | Some p =>
      match kind_of sc p with
      | Some ExportNamedDeclaration => true
      | Some ExportDefaultDeclaration => true
      | _ => false
      end
  | None => false
  end.

Fixpoint getTopLevelStatement_loop (fuel : nat) (sc : SourceCode)
    (current programNode : NodeId) : NodeId :=
  match fuel with
  | O => current
  | S fuel' =>
      match parent_of sc current with
      | Some p =>
          if Nat.eqb p programNode then current
          else getTopLevelStatement_loop fuel' sc p programNode
      | None => current
      end
  end.

Definition getTopLevelStatement (sc : SourceCode)
    (node programNode : NodeId) : NodeId :=
  getTopLevelStatement_loop (List.length (nodes sc)) sc node programNode.

(** [None] is the source's [null]. *)
Definition getTypeBody (sc : SourceCode) (typeDefNode : NodeId)
  : option Text :=
  match kind_of sc typeDefNode with
  | Some (TSTypeAliasDeclaration _ _ typeAnnotation) =>
      Some (getText sc typeAnnotation)
  | Some (TSInterfaceDeclaration _ _ body) => Some (getText sc body)
  | _ => None
  end.

(* ================================================================== *)
(** * Reports and fixes                                                 *)
(* ================================================================== *)

(** A fix object of the rule fixer: a range of the text and the text that
    replaces it. *)
Record Fix := mkFix {
  fix_range : nat * nat;
  fix_text : Text
}.

Definition removeRange (r : nat * nat) : Fix := mkFix r [].

Definition replaceText (sc : SourceCode) (node : NodeId) (t : Text) : Fix :=
  mkFix (range_of sc node) t.

(** What the [fix] callback returns: [null], or the array of fixes. *)
Inductive FixOutcome :=
| FixNull
| FixEdits (fixes : list Fix).

(** [text[pos] === c], guarded by [pos < text.length]. *)
Definition char_at_is (t : Text) (pos : nat) (c : ascii) : bool :=
  (pos <? List.length t) &&
  match nth_error t pos with
  | Some c' => Ascii.eqb c' c
  | None => false
  end.

(** The [endPos] adjustment of [fix]: step over one line terminator. *)
Definition skip_line_terminator (t : Text) (endPos : nat) : nat :=
  if char_at_is t endPos LF then endPos + 1
  else if char_at_is t endPos CR then
    if char_at_is t (endPos + 1) LF then endPos + 1 + 1 else endPos + 1
  else endPos.

(** The [fix(fixer)] callback of the report for [typeDefNode], whose single
    reference is [reference]. *)
Definition fix_callback (sc : SourceCode) (typeDefNode reference : NodeId)
  : FixOutcome :=
  let programNode := ast sc in
  let typeDefStatement := getTopLevelStatement sc typeDefNode programNode in
  match getTypeBody sc typeDefNode with
  | None => FixNull
  | Some [] => FixNull
  | Some typeBody =>
      match parent_of sc reference with
      | None => FixNull
      | Some typeReferenceNode =>
          match kind_of sc typeReferenceNode with
          | Some (TSTypeAnnotation typeAnnotation) =>
              let endPos :=
                skip_line_terminator (text sc)
                  (snd (range_of sc typeDefStatement)) in
              FixEdits
                [ removeRange (fst (range_of sc typeDefStatement), endPos);
                  replaceText sc typeAnnotation typeBody ]
          | _ => FixNull
          end
      end
  end.

(** What [context.report] receives: the descriptor of a report, with the
    outcome of its [fix] callback. *)
Record Report := mkReport {
  node : NodeId;
  messageId : string;
  typeName : string;
  fix_ : FixOutcome
}.

(** One iteration of the [for ... of typeUsageCount.entries()] loop up to
    its call of [context.report]: [None] when the iteration ends in
    [continue], [Some] of the descriptor that the call receives. *)
Definition exit_iteration (st : State) (sc : SourceCode)
    (entry : string * nat) : option Report :=
  let '(name, count) := entry in
  match JSMap.get (typeDefinitions st) name with
  | None => None
  | Some typeDefNode =>
      if negb (count =? 1) then None
      else if isExported sc typeDefNode then None
      else
        match JSMap.get (typeReferences st) name with
        | Some [reference] =>
            if negb (isInFunctionParameter sc reference) then None
            else Some (mkReport typeDefNode "preferInlineType" name
                         (fix_callback sc typeDefNode reference))
        | _ => None
        end
  end.

(** The descriptors of all the iterations that reach [context.report],
    each taken by itself: what the loop submits when no call of
    [context.report] fails.  A call that fails ends the loop; the loop as
    it runs is [report_loop] below. *)
Fixpoint exit_loop (st : State) (sc : SourceCode)
    (entries : list (string * nat)) : list Report :=
  match entries with
  | [] => []
  | e :: es =>
      match exit_iteration st sc e with
      | Some r => r :: exit_loop st sc es
      | None => exit_loop st sc es
      end
  end.

(** The descriptors that the ["Program:exit"] handler has for
    [context.report], in order. *)
Definition Program_exit (st : State) (sc : SourceCode) : list Report :=
  exit_loop st sc (JSMap.entries (typeUsageCount st)).

(** The candidate reports of a file: traversal, then the descriptors of
    [Program:exit].  The reports the rule makes are a prefix of them
    ([lint] below): all of them when no fix has overlapping edits. *)
Definition run (sc : SourceCode) : list Report :=
  Program_exit (traverse sc) sc.

(* ================================================================== *)
(** * The consumer of fixes                                             *)
(* ================================================================== *)

(** Modelled from the spec: the consumer that applies the fixes of a report
    is the reporting harness, an external collaborator that is not part of
    the rule.  Section 6 of the specification has it replace each range by
    its replacement text in a single pass over the original text, the ranges
    never overlapping.  [fix_leb] orders fixes by range, start first. *)
Definition fix_leb (f g : Fix) : bool :=
  (fst (fix_range f) <? fst (fix_range g)) ||
  ((fst (fix_range f) =? fst (fix_range g)) &&
   (snd (fix_range f) <=? snd (fix_range g))).

(** Modelled from the spec: insertion of a fix into an ordered list, for
    the consumer's ordering of the fixes. *)
Fixpoint insert_fix (f : Fix) (fs : list Fix) : list Fix :=
  match fs with
  | [] => [f]
  | g :: fs' => if fix_leb f g then f :: g :: fs' else g :: insert_fix f fs'
  end.

(** Modelled from the spec: the fixes of a report, ordered by range. *)
Definition sort_fixes (fs : list Fix) : list Fix :=
  fold_right insert_fix [] fs.

(** Modelled from the spec: the consumer's single pass.  It copies the text
    from [lastPos] to the start of the next fix, then the replacement text,
    and goes on from the end of the fix; it fails ([None]) on a fix that
    starts before the previous one ended. *)
Fixpoint apply_sorted (t : Text) (lastPos : nat) (fs : list Fix)
  : option Text :=
  match fs with
  | [] => Some (skipn lastPos t)
  | f :: fs' =>
      if fst (fix_range f) <? lastPos then None
      else
        match apply_sorted t (snd (fix_range f)) fs' with
        | Some rest =>
            Some (slice lastPos (fst (fix_range f)) t ++ fix_text f ++ rest)
        | None => None
        end
  end.

(** Modelled from the spec: the text a consumer makes of the fixes of one
    report. *)
Definition apply_fixes (t : Text) (fs : list Fix) : option Text :=
  apply_sorted t 0 (sort_fixes fs).

(* ================================================================== *)
(** * [context.report] and the loop of [Program:exit] as it runs         *)
(* ================================================================== *)

(** The check the harness makes on the fixes of one report: ordered by
    range, a fix must not start before the previous one ended. *)
Fixpoint overlap_sorted (lastPos : nat) (fs : list Fix) : bool :=
  match fs with
  | [] => false
  | f :: fs' =>
      (fst (fix_range f) <? lastPos) || overlap_sorted (snd (fix_range f)) fs'
  end.

Definition fixes_overlap (fs : list Fix) : bool :=
  overlap_sorted 0 (sort_fixes fs).

(** [context.report(descriptor)].  The harness is not part of the rule's
    source.  Its [context.report] calls the [fix] callback at once and
    raises an error when the fixes returned for the report overlap; the
    rule does not catch it.  [None] is that error, [Some] the report
    made. *)
Definition context_report (descriptor : Report) : option Report :=
  match fix_ descriptor with
  | FixNull => Some descriptor
  | FixEdits fs => if fixes_overlap fs then None else Some descriptor
  end.

(** What [Program:exit] comes to: the reports made, and whether the loop
    reached its end; [completed = false] when a call of [context.report]
    raised its error, which ends the loop (and the handler) there. *)
Record Outcome := mkOutcome {
  made : list Report;
  completed : bool
}.

(** The [for ... of typeUsageCount.entries()] loop as it runs. *)
Fixpoint report_loop (st : State) (sc : SourceCode)
    (entries : list (string * nat)) : Outcome :=
  match entries with
  | [] => mkOutcome [] true
  | e :: es =>
      match exit_iteration st sc e with
      | None => report_loop st sc es
      | Some descriptor =>
          match context_report descriptor with
          | None => mkOutcome [] false
          | Some rep =>
              mkOutcome (rep :: made (report_loop st sc es))
                        (completed (report_loop st sc es))
          end
      end
  end.

(** The rule run on one file: traversal, then [Program:exit]. *)
Definition lint (sc : SourceCode) : Outcome :=
  report_loop (traverse sc) sc (JSMap.entries (typeUsageCount (traverse sc))).


(* ================================================================== *)
(** * Vocabulary of the specification                                   *)
(* ================================================================== *)

(** The node is a type reference whose name is the identifier [name]. *)
Definition is_reference_to (name : string) (n : Node) : bool :=
  match kind n with
  | TSTypeReference (IdentifierName name') => String.eqb name' name
  | _ => false
  end.

(** The type-reference occurrences of [name] among the nodes
    [start, start+1, ...] listed in [ns], in source order. *)
Fixpoint occurrences_from (start : NodeId) (ns : list Node) (name : string)
  : list NodeId :=
  match ns with
  | [] => []
  | n :: ns' =>
      if is_reference_to name n
      then start :: occurrences_from (S start) ns' name
      else occurrences_from (S start) ns' name
  end.

Definition occurrences (sc : SourceCode) (name : string) : list NodeId :=
  occurrences_from 0 (nodes sc) name.

(** Name and genericity of a type declaration (alias or interface). *)
Definition declares (n : Node) : option (string * bool) :=
  match kind n with
  | TSTypeAliasDeclaration id tp _ => Some (id, tp)
  | TSInterfaceDeclaration id tp _ => Some (id, tp)
  | _ => None
  end.

(** The node that holds a declaration's body: the right-hand type of an
    alias, the member block of an interface. *)
Definition declaration_body (n : Node) : option NodeId :=
  match kind n with
  | TSTypeAliasDeclaration _ _ typeAnnotation => Some typeAnnotation
  | TSInterfaceDeclaration _ _ body => Some body
  | _ => None
  end.

(** [d] is the immediate subject of an export clause. *)
Definition export_subject (sc : SourceCode) (d : NodeId) : Prop :=
  exists p, parent_of sc d = Some p /\
            (kind_of sc p = Some ExportNamedDeclaration \/
             kind_of sc p = Some ExportDefaultDeclaration).

(** The node is a non-generic declaration of [name]: one that the visitors
    record under that name. *)
Definition recordable_as (name : string) (n : Node) : bool :=
  match declares n with
  | Some (id, false) => String.eqb id name
  | _ => false
  end.

(** No node after [d] is a non-generic declaration of [name]. *)
Definition last_declaration_of (sc : SourceCode) (d : NodeId) (name : string)
  : bool :=
  forallb (fun n => negb (recordable_as name n)) (skipn (S d) (nodes sc)).



(** [d] is the only declaration, generic or not, of the name [name]. *)
Definition only_declaration_of (sc : SourceCode) (d : NodeId) (name : string)
  : Prop :=
  forall j m tp,
    get_node sc j = Some m -> declares m = Some (name, tp) -> j = d.

(** [ancestor sc n a]: [a] is a proper ancestor of [n]. *)
Inductive ancestor (sc : SourceCode) : NodeId -> NodeId -> Prop :=
| ancestor_parent n p :
    parent_of sc n = Some p -> ancestor sc n p
| ancestor_step n p a :
    parent_of sc n = Some p -> ancestor sc p a -> ancestor sc n a.

(** The parameter list of a function declaration, function expression or
    arrow function. *)
Definition function_params (k : NodeKind) : option (list NodeId) :=
  match k with
  | FunctionDeclaration ps => Some ps
  | FunctionExpression ps => Some ps
  | ArrowFunctionExpression ps => Some ps
  | _ => None
  end.

(** [a] is the type annotation of a function parameter: an annotation node
    attached to a node that some function lists among its parameters. *)
Definition parameter_annotation (sc : SourceCode) (a : NodeId) : Prop :=
  exists target p f fk ps,
    kind_of sc a = Some (TSTypeAnnotation target) /\
    parent_of sc a = Some p /\
    kind_of sc f = Some fk /\
    function_params fk = Some ps /\
    In p ps.

(** The reference lies, directly or through nested type composition, inside
    the type annotation of a function parameter. *)
Definition in_parameter_annotation (sc : SourceCode) (r : NodeId) : Prop :=
  exists a, ancestor sc r a /\ parameter_annotation sc a.

(** An annotation attached to a binding: an identifier or a destructuring
    pattern. *)
Definition binding_annotation (sc : SourceCode) (c : NodeId) : bool :=
  match kind_of sc c with
  | Some (TSTypeAnnotation _) =>
      match parent_of sc c with
      | Some p =>
          match kind_of sc p with
          | Some ObjectPattern => true
          | Some ArrayPattern => true
          | Some (Identifier _) => true
          | _ => false
          end
      | None => false
      end
  | _ => false
  end.

(** [innermost_binding_annotation sc n a]: going up from [n], [a] is the
    first annotation attached to a binding. *)
Inductive innermost_binding_annotation (sc : SourceCode)
  : NodeId -> NodeId -> Prop :=
| iba_parent n a :
    binding_annotation sc n = false ->
    parent_of sc n = Some a ->
    binding_annotation sc a = true ->
    innermost_binding_annotation sc n a
| iba_step n p a :
    binding_annotation sc n = false ->
    parent_of sc n = Some p ->
    innermost_binding_annotation sc p a ->
    innermost_binding_annotation sc n a.

(** The annotation is attached to a node whose parent is a function that
    lists the node itself among its parameters. *)
Definition annotates_listed_parameter (sc : SourceCode) (a : NodeId) : Prop :=
  exists p f fk ps,
    parent_of sc a = Some p /\
    parent_of sc p = Some f /\
    kind_of sc f = Some fk /\
    function_params fk = Some ps /\
    In p ps.


(** The reference is the whole type of an annotation: its immediate parent
    is a type-annotation node. *)
Definition directly_annotated (sc : SourceCode) (r : NodeId) : Prop :=
  exists a target,
    parent_of sc r = Some a /\ kind_of sc a = Some (TSTypeAnnotation target).

(** The text of a declaration's body, sliced from the source by range. *)
Definition declaration_body_text (sc : SourceCode) (n : Node) : Text :=
  match declaration_body n with
  | Some b => slice (fst (range_of sc b)) (snd (range_of sc b)) (text sc)
  | None => []
  end.

(** [stmt] is the top-level statement that encloses [d]: [d] itself or an
    ancestor of it, and a child of the program node. *)
Definition enclosing_top_level_statement (sc : SourceCode) (d stmt : NodeId)
  : Prop :=
  (stmt = d \/ ancestor sc d stmt) /\ parent_of sc stmt = Some (ast sc).

(** The line terminator that starts at [pos], if any: the two-character
    one, or one of the single-character ones. *)
Definition line_terminator_at (t : Text) (pos : nat) : Text :=
  match skipn pos t with
  | c1 :: c2 :: _ =>
      if Ascii.eqb c1 CR && Ascii.eqb c2 LF then [CR; LF]
      else if Ascii.eqb c1 LF || Ascii.eqb c1 CR then [c1]
      else []
  | [c1] => if Ascii.eqb c1 LF || Ascii.eqb c1 CR then [c1] else []
  | [] => []
  end.

(** The span a fix deletes for the statement [stmt]: the statement and the
    line terminator that follows it. *)
Definition deleted_span (sc : SourceCode) (stmt : NodeId) : nat * nat :=
  (fst (range_of sc stmt),
   snd (range_of sc stmt)
   + List.length (line_terminator_at (text sc) (snd (range_of sc stmt)))).

(** The original text with the span [del] removed and the span [ann]
    replaced by [body], the two spans lying one after the other. *)
Definition spec_fixed_text (t : Text) (del ann : nat * nat) (body : Text)
  : Text :=
  if snd del <=? fst ann
  then firstn (fst del) t ++ slice (snd del) (fst ann) t
       ++ body ++ skipn (snd ann) t
  else firstn (fst ann) t ++ body
       ++ slice (snd ann) (fst del) t ++ skipn (snd del) t.

(** Two half-open ranges that share no position. *)
Definition disjoint_ranges (r1 r2 : nat * nat) : bool :=
  (snd r1 <=? fst r2) || (snd r2 <=? fst r1).

(* ================================================================== *)
(** * Well-formed trees                                                 *)
(* ================================================================== *)

(** What a parser guarantees of the arena: a parent is entered before its
    children and only the program node has none; the program node is a
    [Program]; a listed parameter is a child of its function; the child of
    a type annotation is the type the annotation names; ranges are
    ordered. *)
Definition wf_node (sc : SourceCode) (i : NodeId) (n : Node) : bool :=
  match parent n with
  | None => i =? ast sc
  | Some p =>
      (p <? i) &&
      match kind_of sc p with
      | Some (TSTypeAnnotation target) => target =? i
      | _ => true
      end
  end
  && forallb (fun p => match parent_of sc p with
                       | Some f => f =? i
                       | None => false
                       end)
       (match function_params (kind n) with Some ps => ps | None => [] end)
  && (fst (range n) <=? snd (range n)).

Fixpoint wf_nodes_from (sc : SourceCode) (start : NodeId) (ns : list Node)
  : bool :=
  match ns with
  | [] => true
  | n :: ns' => wf_node sc start n && wf_nodes_from sc (S start) ns'
  end.

Definition wf_ast (sc : SourceCode) : bool :=
  match kind_of sc (ast sc) with
  | Some Program => wf_nodes_from sc 0 (nodes sc)
  | _ => false
  end.

(** Ranges follow the tree: the range of a node lies within the range of
    its parent. *)
Definition ranges_nested (sc : SourceCode) : bool :=
  forallb (fun n => match parent n with
                    | Some p =>
                        (fst (range_of sc p) <=? fst (range n)) &&
                        (snd (range n) <=? snd (range_of sc p))
                    | None => true
                    end) (nodes sc).

(* ================================================================== *)
(** * Example programs                                                  *)
(* ================================================================== *)

(** A type alias used once, as the annotation of a plain parameter.
<<
type P = { a: string };
function f(x: P) {}
>>
*)
Definition ex_basic_text : Text :=
  list_ascii_of_string "type P = { a: string };"
  ++ [LF]
  ++ list_ascii_of_string "function f(x: P) {}"
  ++ [LF].

Definition ex_basic_nodes : list Node :=
  [
    (*  0 *) mkNode Program None (0, 44);
    (*  1 *) mkNode (TSTypeAliasDeclaration "P" false 3) (Some 0) (0, 23);
    (*  2 *) mkNode (Identifier "P") (Some 1) (5, 6);
    (*  3 *) mkNode (OtherNode "TSTypeLiteral") (Some 1) (9, 22);
    (*  4 *) mkNode (OtherNode "TSPropertySignature") (Some 3) (11, 20);
    (*  5 *) mkNode (Identifier "a") (Some 4) (11, 12);
    (*  6 *) mkNode (TSTypeAnnotation 7) (Some 4) (12, 20);
    (*  7 *) mkNode (OtherNode "TSStringKeyword") (Some 6) (14, 20);
    (*  8 *) mkNode (FunctionDeclaration [10]) (Some 0) (24, 43);
    (*  9 *) mkNode (Identifier "f") (Some 8) (33, 34);
    (* 10 *) mkNode (Identifier "x") (Some 8) (35, 39);
    (* 11 *) mkNode (TSTypeAnnotation 12) (Some 10) (36, 39);
    (* 12 *) mkNode (TSTypeReference (IdentifierName "P")) (Some 11) (38, 39);
    (* 13 *) mkNode (Identifier "P") (Some 12) (38, 39);
    (* 14 *) mkNode (OtherNode "BlockStatement") (Some 8) (41, 43) ].

Definition ex_basic : SourceCode :=
  mkSourceCode ex_basic_nodes 0 ex_basic_text.

(** The same alias used by two functions.
<<
type P = { a: string };
function f(x: P) {}
function g(y: P) {}
>>
*)
Definition ex_twice_text : Text :=
  list_ascii_of_string "type P = { a: string };"
  ++ [LF]
  ++ list_ascii_of_string "function f(x: P) {}"
  ++ [LF]
  ++ list_ascii_of_string "function g(y: P) {}"
  ++ [LF].

Definition ex_twice_nodes : list Node :=
  [
    (*  0 *) mkNode Program None (0, 64);
    (*  1 *) mkNode (TSTypeAliasDeclaration "P" false 3) (Some 0) (0, 23);
    (*  2 *) mkNode (Identifier "P") (Some 1) (5, 6);
    (*  3 *) mkNode (OtherNode "TSTypeLiteral") (Some 1) (9, 22);
    (*  4 *) mkNode (OtherNode "TSPropertySignature") (Some 3) (11, 20);
    (*  5 *) mkNode (Identifier "a") (Some 4) (11, 12);
    (*  6 *) mkNode (TSTypeAnnotation 7) (Some 4) (12, 20);
    (*  7 *) mkNode (OtherNode "TSStringKeyword") (Some 6) (14, 20);
    (*  8 *) mkNode (FunctionDeclaration [10]) (Some 0) (24, 43);
    (*  9 *) mkNode (Identifier "f") (Some 8) (33, 34);
    (* 10 *) mkNode (Identifier "x") (Some 8) (35, 39);
    (* 11 *) mkNode (TSTypeAnnotation 12) (Some 10) (36, 39);
    (* 12 *) mkNode (TSTypeReference (IdentifierName "P")) (Some 11) (38, 39);
    (* 13 *) mkNode (Identifier "P") (Some 12) (38, 39);
    (* 14 *) mkNode (OtherNode "BlockStatement") (Some 8) (41, 43);
    (* 15 *) mkNode (FunctionDeclaration [17]) (Some 0) (44, 63);
    (* 16 *) mkNode (Identifier "g") (Some 15) (53, 54);
    (* 17 *) mkNode (Identifier "y") (Some 15) (55, 59);
    (* 18 *) mkNode (TSTypeAnnotation 19) (Some 17) (56, 59);
    (* 19 *) mkNode (TSTypeReference (IdentifierName "P")) (Some 18) (58, 59);
    (* 20 *) mkNode (Identifier "P") (Some 19) (58, 59);
    (* 21 *) mkNode (OtherNode "BlockStatement") (Some 15) (61, 63) ].

Definition ex_twice : SourceCode :=
  mkSourceCode ex_twice_nodes 0 ex_twice_text.

(** An alias used once, as the annotation of a variable.
<<
type C = { e: boolean };
const c: C = { e: true };
>>
*)
Definition ex_variable_text : Text :=
  list_ascii_of_string "type C = { e: boolean };"
  ++ [LF]
  ++ list_ascii_of_string "const c: C = { e: true };"
  ++ [LF].

Definition ex_variable_nodes : list Node :=
  [
    (*  0 *) mkNode Program None (0, 51);
    (*  1 *) mkNode (TSTypeAliasDeclaration "C" false 3) (Some 0) (0, 24);
    (*  2 *) mkNode (Identifier "C") (Some 1) (5, 6);
    (*  3 *) mkNode (OtherNode "TSTypeLiteral") (Some 1) (9, 23);
    (*  4 *) mkNode (OtherNode "TSPropertySignature") (Some 3) (11, 21);
    (*  5 *) mkNode (Identifier "e") (Some 4) (11, 12);
    (*  6 *) mkNode (TSTypeAnnotation 7) (Some 4) (12, 21);
    (*  7 *) mkNode (OtherNode "TSBooleanKeyword") (Some 6) (14, 21);
    (*  8 *) mkNode (OtherNode "VariableDeclaration") (Some 0) (25, 50);
    (*  9 *) mkNode (VariableDeclarator (Some 14)) (Some 8) (31, 49);
    (* 10 *) mkNode (Identifier "c") (Some 9) (31, 35);
    (* 11 *) mkNode (TSTypeAnnotation 12) (Some 10) (32, 35);
    (* 12 *) mkNode (TSTypeReference (IdentifierName "C")) (Some 11) (34, 35);
    (* 13 *) mkNode (Identifier "C") (Some 12) (34, 35);
    (* 14 *) mkNode (OtherNode "ObjectExpression") (Some 9) (38, 49);
    (* 15 *) mkNode (OtherNode "Property") (Some 14) (40, 47);
    (* 16 *) mkNode (Identifier "e") (Some 15) (40, 41);
    (* 17 *) mkNode (OtherNode "Literal") (Some 15) (43, 47) ].

Definition ex_variable : SourceCode :=
  mkSourceCode ex_variable_nodes 0 ex_variable_text.

(** An exported alias used once in a parameter annotation.
<<
export type P = { a: string };
export const f = ({ a }: P) => a;
>>
*)
Definition ex_exported_text : Text :=
  list_ascii_of_string "export type P = { a: string };"
  ++ [LF]
  ++ list_ascii_of_string "export const f = ({ a }: P) => a;"
  ++ [LF].

Definition ex_exported_nodes : list Node :=
  [
    (*  0 *) mkNode Program None (0, 65);
    (*  1 *) mkNode ExportNamedDeclaration (Some 0) (0, 30);
    (*  2 *) mkNode (TSTypeAliasDeclaration "P" false 4) (Some 1) (7, 30);
    (*  3 *) mkNode (Identifier "P") (Some 2) (12, 13);
    (*  4 *) mkNode (OtherNode "TSTypeLiteral") (Some 2) (16, 29);
    (*  5 *) mkNode (OtherNode "TSPropertySignature") (Some 4) (18, 27);
    (*  6 *) mkNode (Identifier "a") (Some 5) (18, 19);
    (*  7 *) mkNode (TSTypeAnnotation 8) (Some 5) (19, 27);
    (*  8 *) mkNode (OtherNode "TSStringKeyword") (Some 7) (21, 27);
    (*  9 *) mkNode ExportNamedDeclaration (Some 0) (31, 64);
    (* 10 *) mkNode (OtherNode "VariableDeclaration") (Some 9) (38, 64);
    (* 11 *) mkNode (VariableDeclarator (Some 13)) (Some 10) (44, 63);
    (* 12 *) mkNode (Identifier "f") (Some 11) (44, 45);
    (* 13 *) mkNode (ArrowFunctionExpression [14]) (Some 11) (48, 63);
    (* 14 *) mkNode ObjectPattern (Some 13) (49, 57);
    (* 15 *) mkNode (OtherNode "Property") (Some 14) (51, 52);
    (* 16 *) mkNode (Identifier "a") (Some 15) (51, 52);
    (* 17 *) mkNode (TSTypeAnnotation 18) (Some 14) (54, 57);
    (* 18 *) mkNode (TSTypeReference (IdentifierName "P")) (Some 17) (56, 57);
    (* 19 *) mkNode (Identifier "P") (Some 18) (56, 57);
    (* 20 *) mkNode (Identifier "a") (Some 13) (62, 63) ].

Definition ex_exported : SourceCode :=
  mkSourceCode ex_exported_nodes 0 ex_exported_text.

(** A generic alias used once in a parameter annotation.
<<
type P<T> = { a: T };
function f(x: P<string>) {}
>>
*)
Definition ex_generic_text : Text :=
  list_ascii_of_string "type P<T> = { a: T };"
  ++ [LF]
  ++ list_ascii_of_string "function f(x: P<string>) {}"
  ++ [LF].

Definition ex_generic_nodes : list Node :=
  [
    (*  0 *) mkNode Program None (0, 50);
    (*  1 *) mkNode (TSTypeAliasDeclaration "P" true 6) (Some 0) (0, 21);
    (*  2 *) mkNode (Identifier "P") (Some 1) (5, 6);
    (*  3 *) mkNode (OtherNode "TSTypeParameterDeclaration") (Some 1) (6, 9);
    (*  4 *) mkNode (OtherNode "TSTypeParameter") (Some 3) (7, 8);
    (*  5 *) mkNode (Identifier "T") (Some 4) (7, 8);
    (*  6 *) mkNode (OtherNode "TSTypeLiteral") (Some 1) (12, 20);
    (*  7 *) mkNode (OtherNode "TSPropertySignature") (Some 6) (14, 18);
    (*  8 *) mkNode (Identifier "a") (Some 7) (14, 15);
    (*  9 *) mkNode (TSTypeAnnotation 10) (Some 7) (15, 18);
    (* 10 *) mkNode (TSTypeReference (IdentifierName "T")) (Some 9) (17, 18);
    (* 11 *) mkNode (Identifier "T") (Some 10) (17, 18);
    (* 12 *) mkNode (FunctionDeclaration [14]) (Some 0) (22, 49);
    (* 13 *) mkNode (Identifier "f") (Some 12) (31, 32);
    (* 14 *) mkNode (Identifier "x") (Some 12) (33, 45);
    (* 15 *) mkNode (TSTypeAnnotation 16) (Some 14) (34, 45);
    (* 16 *) mkNode (TSTypeReference (IdentifierName "P")) (Some 15) (36, 45);
    (* 17 *) mkNode (Identifier "P") (Some 16) (36, 37);
    (* 18 *) mkNode (OtherNode "TSTypeParameterInstantiation") (Some 16) (37, 45);
    (* 19 *) mkNode (OtherNode "TSStringKeyword") (Some 18) (38, 44);
    (* 20 *) mkNode (OtherNode "BlockStatement") (Some 12) (47, 49) ].

Definition ex_generic : SourceCode :=
  mkSourceCode ex_generic_nodes 0 ex_generic_text.

(** An alias used once, as the annotation of a destructured parameter
    that has a default value.
<<
type P = { a: string };
function f({ a }: P = { a: '' }) {}
>>
*)
Definition ex_default_text : Text :=
  list_ascii_of_string "type P = { a: string };"
  ++ [LF]
  ++ list_ascii_of_string "function f({ a }: P = { a: '' }) {}"
  ++ [LF].

Definition ex_default_nodes : list Node :=
  [
    (*  0 *) mkNode Program None (0, 60);
    (*  1 *) mkNode (TSTypeAliasDeclaration "P" false 3) (Some 0) (0, 23);
    (*  2 *) mkNode (Identifier "P") (Some 1) (5, 6);
    (*  3 *) mkNode (OtherNode "TSTypeLiteral") (Some 1) (9, 22);
    (*  4 *) mkNode (OtherNode "TSPropertySignature") (Some 3) (11, 20);
    (*  5 *) mkNode (Identifier "a") (Some 4) (11, 12);
    (*  6 *) mkNode (TSTypeAnnotation 7) (Some 4) (12, 20);
    (*  7 *) mkNode (OtherNode "TSStringKeyword") (Some 6) (14, 20);
    (*  8 *) mkNode (FunctionDeclaration [10]) (Some 0) (24, 59);
    (*  9 *) mkNode (Identifier "f") (Some 8) (33, 34);
    (* 10 *) mkNode AssignmentPattern (Some 8) (35, 55);
    (* 11 *) mkNode ObjectPattern (Some 10) (35, 43);
    (* 12 *) mkNode (OtherNode "Property") (Some 11) (37, 38);
    (* 13 *) mkNode (Identifier "a") (Some 12) (37, 38);
    (* 14 *) mkNode (TSTypeAnnotation 15) (Some 11) (40, 43);
    (* 15 *) mkNode (TSTypeReference (IdentifierName "P")) (Some 14) (42, 43);
    (* 16 *) mkNode (Identifier "P") (Some 15) (42, 43);
    (* 17 *) mkNode (OtherNode "ObjectExpression") (Some 10) (46, 55);
    (* 18 *) mkNode (OtherNode "Property") (Some 17) (48, 53);
    (* 19 *) mkNode (Identifier "a") (Some 18) (48, 49);
    (* 20 *) mkNode (OtherNode "Literal") (Some 18) (51, 53);
    (* 21 *) mkNode (OtherNode "BlockStatement") (Some 8) (57, 59) ].

Definition ex_default : SourceCode :=
  mkSourceCode ex_default_nodes 0 ex_default_text.

(** An alias declared inside the function that holds its single use.
<<
function outer() {
  type P = { a: string };
  function inner(x: P) {}
}
>>
*)
Definition ex_nested_decl_text : Text :=
  list_ascii_of_string "function outer() {"
  ++ [LF]
  ++ list_ascii_of_string "  type P = { a: string };"
  ++ [LF]
  ++ list_ascii_of_string "  function inner(x: P) {}"
  ++ [LF]
  ++ list_ascii_of_string "}"
  ++ [LF].

Definition ex_nested_decl_nodes : list Node :=
  [
    (*  0 *) mkNode Program None (0, 73);
    (*  1 *) mkNode (FunctionDeclaration []) (Some 0) (0, 72);
    (*  2 *) mkNode (Identifier "outer") (Some 1) (9, 14);
    (*  3 *) mkNode (OtherNode "BlockStatement") (Some 1) (17, 72);
    (*  4 *) mkNode (TSTypeAliasDeclaration "P" false 6) (Some 3) (21, 44);
    (*  5 *) mkNode (Identifier "P") (Some 4) (26, 27);
    (*  6 *) mkNode (OtherNode "TSTypeLiteral") (Some 4) (30, 43);
    (*  7 *) mkNode (OtherNode "TSPropertySignature") (Some 6) (32, 41);
    (*  8 *) mkNode (Identifier "a") (Some 7) (32, 33);
    (*  9 *) mkNode (TSTypeAnnotation 10) (Some 7) (33, 41);
    (* 10 *) mkNode (OtherNode "TSStringKeyword") (Some 9) (35, 41);
    (* 11 *) mkNode (FunctionDeclaration [13]) (Some 3) (47, 70);
    (* 12 *) mkNode (Identifier "inner") (Some 11) (56, 61);
    (* 13 *) mkNode (Identifier "x") (Some 11) (62, 66);
    (* 14 *) mkNode (TSTypeAnnotation 15) (Some 13) (63, 66);
    (* 15 *) mkNode (TSTypeReference (IdentifierName "P")) (Some 14) (65, 66);
    (* 16 *) mkNode (Identifier "P") (Some 15) (65, 66);
    (* 17 *) mkNode (OtherNode "BlockStatement") (Some 11) (68, 70) ].

Definition ex_nested_decl : SourceCode :=
  mkSourceCode ex_nested_decl_nodes 0 ex_nested_decl_text.




(** An alias used once, as a type argument inside a parameter's
    annotation.
<<
type P = { a: string };
function f(x: Array<P>) {}
>>
*)
Definition ex_wrapped_text : Text :=
  list_ascii_of_string "type P = { a: string };"
  ++ [LF]
  ++ list_ascii_of_string "function f(x: Array<P>) {}"
  ++ [LF].

Definition ex_wrapped_nodes : list Node :=
  [
    (*  0 *) mkNode Program None (0, 51);
    (*  1 *) mkNode (TSTypeAliasDeclaration "P" false 3) (Some 0) (0, 23);
    (*  2 *) mkNode (Identifier "P") (Some 1) (5, 6);
    (*  3 *) mkNode (OtherNode "TSTypeLiteral") (Some 1) (9, 22);
    (*  4 *) mkNode (OtherNode "TSPropertySignature") (Some 3) (11, 20);
    (*  5 *) mkNode (Identifier "a") (Some 4) (11, 12);
    (*  6 *) mkNode (TSTypeAnnotation 7) (Some 4) (12, 20);
    (*  7 *) mkNode (OtherNode "TSStringKeyword") (Some 6) (14, 20);
    (*  8 *) mkNode (FunctionDeclaration [10]) (Some 0) (24, 50);
    (*  9 *) mkNode (Identifier "f") (Some 8) (33, 34);
    (* 10 *) mkNode (Identifier "x") (Some 8) (35, 46);
    (* 11 *) mkNode (TSTypeAnnotation 12) (Some 10) (36, 46);
    (* 12 *) mkNode (TSTypeReference (IdentifierName "Array")) (Some 11) (38, 46);
    (* 13 *) mkNode (Identifier "Array") (Some 12) (38, 43);
    (* 14 *) mkNode (OtherNode "TSTypeParameterInstantiation") (Some 12) (43, 46);
    (* 15 *) mkNode (TSTypeReference (IdentifierName "P")) (Some 14) (44, 45);
    (* 16 *) mkNode (Identifier "P") (Some 15) (44, 45);
    (* 17 *) mkNode (OtherNode "BlockStatement") (Some 8) (48, 50) ].

Definition ex_wrapped : SourceCode :=
  mkSourceCode ex_wrapped_nodes 0 ex_wrapped_text.




(** An alias used once, as the parameter type of a function type that
    is a parameter's annotation.
<<
type P = { a: string };
function f(cb: (x: P) => void) {}
>>
*)
Definition ex_callback_text : Text :=
  list_ascii_of_string "type P = { a: string };"
  ++ [LF]
  ++ list_ascii_of_string "function f(cb: (x: P) => void) {}"
  ++ [LF].

Definition ex_callback_nodes : list Node :=
  [
    (*  0 *) mkNode Program None (0, 58);
    (*  1 *) mkNode (TSTypeAliasDeclaration "P" false 3) (Some 0) (0, 23);
    (*  2 *) mkNode (Identifier "P") (Some 1) (5, 6);
    (*  3 *) mkNode (OtherNode "TSTypeLiteral") (Some 1) (9, 22);
    (*  4 *) mkNode (OtherNode "TSPropertySignature") (Some 3) (11, 20);
    (*  5 *) mkNode (Identifier "a") (Some 4) (11, 12);
    (*  6 *) mkNode (TSTypeAnnotation 7) (Some 4) (12, 20);
    (*  7 *) mkNode (OtherNode "TSStringKeyword") (Some 6) (14, 20);
    (*  8 *) mkNode (FunctionDeclaration [10]) (Some 0) (24, 57);
    (*  9 *) mkNode (Identifier "f") (Some 8) (33, 34);
    (* 10 *) mkNode (Identifier "cb") (Some 8) (35, 53);
    (* 11 *) mkNode (TSTypeAnnotation 12) (Some 10) (37, 53);
    (* 12 *) mkNode (OtherNode "TSFunctionType") (Some 11) (39, 53);
    (* 13 *) mkNode (Identifier "x") (Some 12) (40, 44);
    (* 14 *) mkNode (TSTypeAnnotation 15) (Some 13) (41, 44);
    (* 15 *) mkNode (TSTypeReference (IdentifierName "P")) (Some 14) (43, 44);
    (* 16 *) mkNode (Identifier "P") (Some 15) (43, 44);
    (* 17 *) mkNode (TSTypeAnnotation 18) (Some 12) (46, 53);
    (* 18 *) mkNode (OtherNode "TSVoidKeyword") (Some 17) (49, 53);
    (* 19 *) mkNode (OtherNode "BlockStatement") (Some 8) (55, 57) ].

Definition ex_callback : SourceCode :=
  mkSourceCode ex_callback_nodes 0 ex_callback_text.

(** The first invalid case of the rule's test suite.
<<

type UserProps = {
  name: string;
  age: number;
};

const User = ({ name, age }: UserProps) => {
  return name;
};
      >>
*)
Definition ex_test_alias_text : Text :=
  [LF]
  ++ list_ascii_of_string "type UserProps = {"
  ++ [LF]
  ++ list_ascii_of_string "  name: string;"
  ++ [LF]
  ++ list_ascii_of_string "  age: number;"
  ++ [LF]
  ++ list_ascii_of_string "};"
  ++ [LF]
  ++ [LF]
  ++ list_ascii_of_string "const User = ({ name, age }: UserProps) => {"
  ++ [LF]
  ++ list_ascii_of_string "  return name;"
  ++ [LF]
  ++ list_ascii_of_string "};"
  ++ [LF]
  ++ list_ascii_of_string "      ".

Definition ex_test_alias_nodes : list Node :=
  [
    (*  0 *) mkNode Program None (1, 117);
    (*  1 *) mkNode (TSTypeAliasDeclaration "UserProps" false 3) (Some 0) (1, 53);
    (*  2 *) mkNode (Identifier "UserProps") (Some 1) (6, 15);
    (*  3 *) mkNode (OtherNode "TSTypeLiteral") (Some 1) (18, 52);
    (*  4 *) mkNode (OtherNode "TSPropertySignature") (Some 3) (22, 35);
    (*  5 *) mkNode (Identifier "name") (Some 4) (22, 26);
    (*  6 *) mkNode (TSTypeAnnotation 7) (Some 4) (26, 34);
    (*  7 *) mkNode (OtherNode "TSStringKeyword") (Some 6) (28, 34);
    (*  8 *) mkNode (OtherNode "TSPropertySignature") (Some 3) (38, 50);
    (*  9 *) mkNode (Identifier "age") (Some 8) (38, 41);
    (* 10 *) mkNode (TSTypeAnnotation 11) (Some 8) (41, 49);
    (* 11 *) mkNode (OtherNode "TSNumberKeyword") (Some 10) (43, 49);
    (* 12 *) mkNode (OtherNode "VariableDeclaration") (Some 0) (55, 117);
    (* 13 *) mkNode (VariableDeclarator (Some 15)) (Some 12) (61, 116);
    (* 14 *) mkNode (Identifier "User") (Some 13) (61, 65);
    (* 15 *) mkNode (ArrowFunctionExpression [16]) (Some 13) (68, 116);
    (* 16 *) mkNode ObjectPattern (Some 15) (69, 93);
    (* 17 *) mkNode (OtherNode "Property") (Some 16) (71, 75);
    (* 18 *) mkNode (Identifier "name") (Some 17) (71, 75);
    (* 19 *) mkNode (OtherNode "Property") (Some 16) (77, 80);
    (* 20 *) mkNode (Identifier "age") (Some 19) (77, 80);
    (* 21 *) mkNode (TSTypeAnnotation 22) (Some 16) (82, 93);
    (* 22 *) mkNode (TSTypeReference (IdentifierName "UserProps")) (Some 21) (84, 93);
    (* 23 *) mkNode (Identifier "UserProps") (Some 22) (84, 93);
    (* 24 *) mkNode (OtherNode "BlockStatement") (Some 15) (98, 116);
    (* 25 *) mkNode (OtherNode "ReturnStatement") (Some 24) (102, 114);
    (* 26 *) mkNode (Identifier "name") (Some 25) (109, 113) ].

Definition ex_test_alias : SourceCode :=
  mkSourceCode ex_test_alias_nodes 0 ex_test_alias_text.

(** The output the test suite expects for it. *)
Definition ex_test_alias_output : Text :=
  [LF]
  ++ [LF]
  ++ list_ascii_of_string "const User = ({ name, age }: {"
  ++ [LF]
  ++ list_ascii_of_string "  name: string;"
  ++ [LF]
  ++ list_ascii_of_string "  age: number;"
  ++ [LF]
  ++ list_ascii_of_string "}) => {"
  ++ [LF]
  ++ list_ascii_of_string "  return name;"
  ++ [LF]
  ++ list_ascii_of_string "};"
  ++ [LF]
  ++ list_ascii_of_string "      ".

(** An interface used once as a parameter's annotation and once in the
    extends clause of another interface.
<<
interface P { a: string }
interface Q extends P { b: number }
function f(x: P) {}
>>
*)
Definition ex_heritage_text : Text :=
  list_ascii_of_string "interface P { a: string }"
  ++ [LF]
  ++ list_ascii_of_string "interface Q extends P { b: number }"
  ++ [LF]
  ++ list_ascii_of_string "function f(x: P) {}"
  ++ [LF].

Definition ex_heritage_nodes : list Node :=
  [
    (*  0 *) mkNode Program None (0, 82);
    (*  1 *) mkNode (TSInterfaceDeclaration "P" false 3) (Some 0) (0, 25);
    (*  2 *) mkNode (Identifier "P") (Some 1) (10, 11);
    (*  3 *) mkNode (OtherNode "TSInterfaceBody") (Some 1) (12, 25);
    (*  4 *) mkNode (OtherNode "TSPropertySignature") (Some 3) (14, 23);
    (*  5 *) mkNode (Identifier "a") (Some 4) (14, 15);
    (*  6 *) mkNode (TSTypeAnnotation 7) (Some 4) (15, 23);
    (*  7 *) mkNode (OtherNode "TSStringKeyword") (Some 6) (17, 23);
    (*  8 *) mkNode (TSInterfaceDeclaration "Q" false 12) (Some 0) (26, 61);
    (*  9 *) mkNode (Identifier "Q") (Some 8) (36, 37);
    (* 10 *) mkNode (OtherNode "TSInterfaceHeritage") (Some 8) (46, 47);
    (* 11 *) mkNode (Identifier "P") (Some 10) (46, 47);
    (* 12 *) mkNode (OtherNode "TSInterfaceBody") (Some 8) (48, 61);
    (* 13 *) mkNode (OtherNode "TSPropertySignature") (Some 12) (50, 59);
    (* 14 *) mkNode (Identifier "b") (Some 13) (50, 51);
    (* 15 *) mkNode (TSTypeAnnotation 16) (Some 13) (51, 59);
    (* 16 *) mkNode (OtherNode "TSNumberKeyword") (Some 15) (53, 59);
    (* 17 *) mkNode (FunctionDeclaration [19]) (Some 0) (62, 81);
    (* 18 *) mkNode (Identifier "f") (Some 17) (71, 72);
    (* 19 *) mkNode (Identifier "x") (Some 17) (73, 77);
    (* 20 *) mkNode (TSTypeAnnotation 21) (Some 19) (74, 77);
    (* 21 *) mkNode (TSTypeReference (IdentifierName "P")) (Some 20) (76, 77);
    (* 22 *) mkNode (Identifier "P") (Some 21) (76, 77);
    (* 23 *) mkNode (OtherNode "BlockStatement") (Some 17) (79, 81) ].

Definition ex_heritage : SourceCode :=
  mkSourceCode ex_heritage_nodes 0 ex_heritage_text.

(** What the fix for [P] makes of it. *)
Definition ex_heritage_fixed : Text :=
  list_ascii_of_string "interface Q extends P { b: number }"
  ++ [LF]
  ++ list_ascii_of_string "function f(x: { a: string }) {}"
  ++ [LF].

(** A nested alias whose fix has overlapping edits, followed by a
    top-level alias with a single use in a parameter annotation.
<<
function outer() {
  type P = { a: string };
  function inner(x: P) {}
}
type Q = { b: number };
function g(y: Q) {}
>>
*)
Definition ex_aborted_text : Text :=
  list_ascii_of_string "function outer() {"
  ++ [LF]
  ++ list_ascii_of_string "  type P = { a: string };"
  ++ [LF]
  ++ list_ascii_of_string "  function inner(x: P) {}"
  ++ [LF]
  ++ list_ascii_of_string "}"
  ++ [LF]
  ++ list_ascii_of_string "type Q = { b: number };"
  ++ [LF]
  ++ list_ascii_of_string "function g(y: Q) {}"
  ++ [LF].

Definition ex_aborted_nodes : list Node :=
  [
    (*  0 *) mkNode Program None (0, 117);
    (*  1 *) mkNode (FunctionDeclaration []) (Some 0) (0, 72);
    (*  2 *) mkNode (Identifier "outer") (Some 1) (9, 14);
    (*  3 *) mkNode (OtherNode "BlockStatement") (Some 1) (17, 72);
    (*  4 *) mkNode (TSTypeAliasDeclaration "P" false 6) (Some 3) (21, 44);
    (*  5 *) mkNode (Identifier "P") (Some 4) (26, 27);
    (*  6 *) mkNode (OtherNode "TSTypeLiteral") (Some 4) (30, 43);
    (*  7 *) mkNode (OtherNode "TSPropertySignature") (Some 6) (32, 41);
    (*  8 *) mkNode (Identifier "a") (Some 7) (32, 33);
    (*  9 *) mkNode (TSTypeAnnotation 10) (Some 7) (33, 41);
    (* 10 *) mkNode (OtherNode "TSStringKeyword") (Some 9) (35, 41);
    (* 11 *) mkNode (FunctionDeclaration [13]) (Some 3) (47, 70);
    (* 12 *) mkNode (Identifier "inner") (Some 11) (56, 61);
    (* 13 *) mkNode (Identifier "x") (Some 11) (62, 66);
    (* 14 *) mkNode (TSTypeAnnotation 15) (Some 13) (63, 66);
    (* 15 *) mkNode (TSTypeReference (IdentifierName "P")) (Some 14) (65, 66);
    (* 16 *) mkNode (Identifier "P") (Some 15) (65, 66);
    (* 17 *) mkNode (OtherNode "BlockStatement") (Some 11) (68, 70);
    (* 18 *) mkNode (TSTypeAliasDeclaration "Q" false 20) (Some 0) (73, 96);
    (* 19 *) mkNode (Identifier "Q") (Some 18) (78, 79);
    (* 20 *) mkNode (OtherNode "TSTypeLiteral") (Some 18) (82, 95);
    (* 21 *) mkNode (OtherNode "TSPropertySignature") (Some 20) (84, 93);
    (* 22 *) mkNode (Identifier "b") (Some 21) (84, 85);
    (* 23 *) mkNode (TSTypeAnnotation 24) (Some 21) (85, 93);
    (* 24 *) mkNode (OtherNode "TSNumberKeyword") (Some 23) (87, 93);
    (* 25 *) mkNode (FunctionDeclaration [27]) (Some 0) (97, 116);
    (* 26 *) mkNode (Identifier "g") (Some 25) (106, 107);
    (* 27 *) mkNode (Identifier "y") (Some 25) (108, 112);
    (* 28 *) mkNode (TSTypeAnnotation 29) (Some 27) (109, 112);
    (* 29 *) mkNode (TSTypeReference (IdentifierName "Q")) (Some 28) (111, 112);
    (* 30 *) mkNode (Identifier "Q") (Some 29) (111, 112);
    (* 31 *) mkNode (OtherNode "BlockStatement") (Some 25) (114, 116) ].

Definition ex_aborted : SourceCode :=
  mkSourceCode ex_aborted_nodes 0 ex_aborted_text.

(* ================================================================== *)
(** * Facts about [JSMap]                                               *)
(* ================================================================== *)

Module JSMapFacts.
Import JSMap.

Section Facts.
Variable V : Type.
Implicit Types (m : JSMap.t V) (k : string) (v : V).

Lemma get_set_same m k v : get (set m k v) k = Some v.
Proof.
  induction m as [|[k' v'] m IH]; simpl.
  - now rewrite String.eqb_refl.
  - destruct (String.eqb k' k) eqn:E; simpl; rewrite E; auto.
Qed.

Lemma get_set_other m k k' v : k <> k' -> get (set m k v) k' = get m k'.
Proof.
  intros Hne. induction m as [|[k0 v0] m IH]; simpl.
  - destruct (String.eqb k k') eqn:E; auto.
    apply String.eqb_eq in E. contradiction.
  - destruct (String.eqb k0 k) eqn:E; simpl.
    + apply String.eqb_eq in E. subst k0.
      apply String.eqb_neq in Hne. now rewrite Hne.
    + now rewrite IH.
Qed.

Lemma get_In m k v : get m k = Some v -> In (k, v) m.
Proof.
  induction m as [|[k' v'] m IH]; simpl; [discriminate|].
  destruct (String.eqb k' k) eqn:E.
  - apply String.eqb_eq in E. intros [= ->]. subst. now left.
  - intros H. right. auto.
Qed.

Lemma get_None_notin m k : get m k = None -> ~ In k (keys m).
Proof.
  induction m as [|[k' v'] m IH]; simpl; [tauto|].
  destruct (String.eqb k' k) eqn:E; [discriminate|].
  apply String.eqb_neq in E. intros H [H1|H1]; [congruence|].
  now apply IH.
Qed.

Lemma In_get m k v : NoDup (keys m) -> In (k, v) m -> get m k = Some v.
Proof.
  induction m as [|[k' v'] m IH]; simpl; [tauto|].
  intros Hnd [H|H].
  - inversion H; subst. now rewrite String.eqb_refl.
  - inversion Hnd as [|? ? Hnotin Hnd']; subst.
    destruct (String.eqb k' k) eqn:E.
    + apply String.eqb_eq in E. subst k'.
      exfalso. apply Hnotin. change k with (fst (k, v)). now apply in_map.
    + auto.
Qed.

Lemma keys_set m k v :
  keys (set m k v) = if has m k then keys m else keys m ++ [k].
Proof.
  unfold has. induction m as [|[k' v'] m IH]; simpl; auto.
  destruct (String.eqb k' k) eqn:E; simpl; auto.
  rewrite IH. now destruct (get m k).
Qed.

Lemma NoDup_keys_set m k v : NoDup (keys m) -> NoDup (keys (set m k v)).
Proof.
  intros Hnd. rewrite keys_set. unfold has.
  destruct (get m k) eqn:E; auto.
  apply get_None_notin in E.
  apply NoDup_app; auto.
  - constructor; [tauto | constructor].
  - intros x Hx [<-|[]]. contradiction.
Qed.
End Facts.

End JSMapFacts.

(* ================================================================== *)
(** * The traversal: counts, reference lists, recorded declarations     *)
(* ================================================================== *)

Import JSMapFacts.

Unset Implicit Arguments.

Lemma has_false_get (V : Type) (m : JSMap.t V) k :
  JSMap.has m k = false -> JSMap.get m k = None.
Proof. unfold JSMap.has. now destruct (JSMap.get m k). Qed.

Lemma count_or_zero_set_same m k c :
  count_or_zero (JSMap.set m k c) k = c.
Proof. unfold count_or_zero. now rewrite get_set_same. Qed.

Lemma count_or_zero_set_other m k k' c :
  k <> k' -> count_or_zero (JSMap.set m k c) k' = count_or_zero m k'.
Proof. intros H. unfold count_or_zero. now rewrite get_set_other. Qed.

Lemma refs_or_nil_set_same m k l :
  refs_or_nil (JSMap.set m k l) k = l.
Proof. unfold refs_or_nil. now rewrite get_set_same. Qed.

Lemma refs_or_nil_set_other m k k' l :
  k <> k' -> refs_or_nil (JSMap.set m k l) k' = refs_or_nil m k'.
Proof. intros H. unfold refs_or_nil. now rewrite get_set_other. Qed.

(** Recording a declaration leaves every count as [|| 0] reads it, and
    every reference list, unchanged. *)
Lemma record_declaration_counts st node id tp name :
  count_or_zero (typeUsageCount (record_declaration st node id tp)) name
  = count_or_zero (typeUsageCount st) name.
Proof.
  unfold record_declaration. destruct tp; simpl; auto.
  destruct (JSMap.has (typeUsageCount st) id) eqn:Hhas; simpl; auto.
  destruct (String.eqb_spec id name) as [->|Hne].
  - rewrite count_or_zero_set_same. unfold count_or_zero.
    now rewrite (has_false_get _ _ _ Hhas).
  - now apply count_or_zero_set_other.
Qed.

Lemma record_declaration_refs st node id tp :
  typeReferences (record_declaration st node id tp) = typeReferences st.
Proof. unfold record_declaration. now destruct tp. Qed.

Lemma reference_counts_same st node name :
  count_or_zero (typeUsageCount
    (visit_TSTypeReference st node (IdentifierName name))) name
  = count_or_zero (typeUsageCount st) name + 1.
Proof. simpl. apply count_or_zero_set_same. Qed.

Lemma reference_refs_same st node name :
  refs_or_nil (typeReferences
    (visit_TSTypeReference st node (IdentifierName name))) name
  = refs_or_nil (typeReferences st) name ++ [node].
Proof.
  simpl. rewrite refs_or_nil_set_same.
  destruct (JSMap.has (typeReferences st) name) eqn:Hhas; simpl; auto.
  rewrite refs_or_nil_set_same. unfold refs_or_nil.
  now rewrite (has_false_get _ _ _ Hhas).
Qed.

Lemma reference_counts_other st node name name' :
  name <> name' ->
  count_or_zero (typeUsageCount
    (visit_TSTypeReference st node (IdentifierName name))) name'
  = count_or_zero (typeUsageCount st) name'.
Proof. intros H. simpl. now apply count_or_zero_set_other. Qed.

Lemma reference_refs_other st node name name' :
  name <> name' ->
  refs_or_nil (typeReferences
    (visit_TSTypeReference st node (IdentifierName name))) name'
  = refs_or_nil (typeReferences st) name'.
Proof.
  intros H. simpl. rewrite refs_or_nil_set_other by assumption.
  destruct (JSMap.has (typeReferences st) name); simpl; auto.
  now apply refs_or_nil_set_other.
Qed.

(** What one visitor call does to the count and the list of [name]: both
    stay, or the count grows by one and the visited node is appended; the
    second happens exactly at a reference to [name]. *)
Lemma visit_effect st node n name :
  (is_reference_to name n = false /\
   count_or_zero (typeUsageCount (visit st node n)) name
   = count_or_zero (typeUsageCount st) name /\
   refs_or_nil (typeReferences (visit st node n)) name
   = refs_or_nil (typeReferences st) name)
  \/
  (is_reference_to name n = true /\
   count_or_zero (typeUsageCount (visit st node n)) name
   = count_or_zero (typeUsageCount st) name + 1 /\
   refs_or_nil (typeReferences (visit st node n)) name
   = refs_or_nil (typeReferences st) name ++ [node]).
Proof.
  unfold visit, is_reference_to.
  destruct (kind n) as [| id tp ta | id tp bd | tn | | | | | | | | | | | | ];
    try (left; repeat split; reflexivity).
  - left. unfold visit_TSTypeAliasDeclaration.
    rewrite record_declaration_counts, record_declaration_refs. auto.
  - left. unfold visit_TSInterfaceDeclaration.
    rewrite record_declaration_counts, record_declaration_refs. auto.
  - destruct tn as [nm | | ]; try (left; repeat split; reflexivity).
    destruct (String.eqb_spec nm name) as [->|Hne].
    + right. split; [reflexivity|]. split.
      * apply reference_counts_same.
      * apply reference_refs_same.
    + left. split; [reflexivity|]. split.
      * now apply reference_counts_other.
      * now apply reference_refs_other.
Qed.

Lemma traverse_from_counts ns : forall start st name,
  count_or_zero (typeUsageCount (traverse_from start ns st)) name
  = count_or_zero (typeUsageCount st) name
    + List.length (occurrences_from start ns name).
Proof.
  induction ns as [|n ns IH]; intros start st name; simpl; [lia|].
  rewrite IH.
  destruct (visit_effect st start n name) as [(Hr & Hc & _)|(Hr & Hc & _)];
    rewrite Hr, Hc; simpl; lia.
Qed.

Lemma traverse_from_refs ns : forall start st name,
  refs_or_nil (typeReferences (traverse_from start ns st)) name
  = refs_or_nil (typeReferences st) name ++ occurrences_from start ns name.
Proof.
  induction ns as [|n ns IH]; intros start st name; simpl.
  - now rewrite app_nil_r.
  - rewrite IH.
    destruct (visit_effect st start n name) as [(Hr & _ & Hl)|(Hr & _ & Hl)];
      rewrite Hr, Hl; simpl; auto.
    now rewrite <- app_assoc.
Qed.

Lemma traverse_counts sc name :
  count_or_zero (typeUsageCount (traverse sc)) name
  = List.length (occurrences sc name).
Proof. unfold traverse, occurrences. now rewrite traverse_from_counts. Qed.

Lemma traverse_refs sc name :
  refs_or_nil (typeReferences (traverse sc)) name = occurrences sc name.
Proof. unfold traverse, occurrences. now rewrite traverse_from_refs. Qed.

(** C9.  At every point of the traversal (after any number [k] of nodes has
    been entered, and when [Program:exit] runs) the usage count of every
    name, read as 0 when the name has no entry, is the length of the name's
    reference list, read as empty when the name has no entry; and every
    visitor call either leaves the count and the list of a name as they
    are or adds one to the count and appends the visited node to the
    list. *)
Theorem usage_count_is_reference_list_length :
  (forall sc k name,
     count_or_zero (typeUsageCount (traverse_upto sc k)) name
     = List.length (refs_or_nil (typeReferences (traverse_upto sc k)) name))
  /\ (forall sc name,
     count_or_zero (typeUsageCount (traverse sc)) name
     = List.length (refs_or_nil (typeReferences (traverse sc)) name))
  /\ (forall st node n name,
     (count_or_zero (typeUsageCount (visit st node n)) name
      = count_or_zero (typeUsageCount st) name /\
      refs_or_nil (typeReferences (visit st node n)) name
      = refs_or_nil (typeReferences st) name)
     \/
     (count_or_zero (typeUsageCount (visit st node n)) name
      = count_or_zero (typeUsageCount st) name + 1 /\
      refs_or_nil (typeReferences (visit st node n)) name
      = refs_or_nil (typeReferences st) name ++ [node])).
Proof.
  split; [|split].
  - intros sc k name. unfold traverse_upto.
    rewrite traverse_from_counts, traverse_from_refs. reflexivity.
  - intros sc name. now rewrite traverse_counts, traverse_refs.
  - intros st node n name.
    destruct (visit_effect st node n name) as [(_ & Hc & Hl)|(_ & Hc & Hl)];
      [left | right]; auto.
Qed.

(** ** Recorded declarations *)

Lemma visit_defs st node n name :
  JSMap.get (typeDefinitions (visit st node n)) name
  = match declares n with
    | Some (id, false) =>
        if String.eqb id name then Some node
        else JSMap.get (typeDefinitions st) name
    | _ => JSMap.get (typeDefinitions st) name
    end.
Proof.
  unfold visit, declares.
  destruct (kind n) as [| id tp ta | id tp bd | tn | | | | | | | | | | | | ];
    try reflexivity.
  - unfold visit_TSTypeAliasDeclaration, record_declaration.
    destruct tp; simpl; auto.
    destruct (String.eqb_spec id name) as [->|Hne].
    + apply get_set_same.
    + now apply get_set_other.
  - unfold visit_TSInterfaceDeclaration, record_declaration.
    destruct tp; simpl; auto.
    destruct (String.eqb_spec id name) as [->|Hne].
    + apply get_set_same.
    + now apply get_set_other.
  - now destruct tn.
Qed.

(** A recorded declaration is a non-generic declaration of that name. *)
Lemma traverse_from_defs_inv ns : forall start st name d,
  JSMap.get (typeDefinitions (traverse_from start ns st)) name = Some d ->
  JSMap.get (typeDefinitions st) name = Some d \/
  exists n, start <= d /\ nth_error ns (d - start) = Some n /\
            declares n = Some (name, false).
Proof.
  induction ns as [|n ns IH]; intros start st name d H; simpl in H; auto.
  apply IH in H. destruct H as [H | (m & Hle & Hnth & Hdec)].
  - rewrite visit_defs in H.
    destruct (declares n) as [[id [|]]|] eqn:Hd; auto.
    destruct (String.eqb_spec id name) as [->|Hne]; auto.
    inversion H; subst d. right. exists n.
    rewrite Nat.sub_diag. simpl. auto.
  - right. exists m. split; [lia|]. split; auto.
    replace (d - start) with (S (d - S start)) by lia. exact Hnth.
Qed.

Lemma traverse_from_defs_none ns : forall start st name,
  (forall j m, nth_error ns j = Some m -> declares m <> Some (name, false)) ->
  JSMap.get (typeDefinitions (traverse_from start ns st)) name
  = JSMap.get (typeDefinitions st) name.
Proof.
  induction ns as [|n ns IH]; intros start st name H; simpl; auto.
  rewrite IH by (intros j m Hj; apply (H (S j) m Hj)).
  rewrite visit_defs. specialize (H 0 n eq_refl).
  destruct (declares n) as [[id [|]]|]; auto.
  destruct (String.eqb_spec id name) as [->|Hne]; auto.
  congruence.
Qed.

(** The last non-generic declaration of a name is the recorded one. *)
Lemma traverse_from_defs_last ns : forall start st name d n,
  nth_error ns d = Some n ->
  declares n = Some (name, false) ->
  (forall j m, d < j -> nth_error ns j = Some m ->
               declares m <> Some (name, false)) ->
  JSMap.get (typeDefinitions (traverse_from start ns st)) name
  = Some (start + d).
Proof.
  induction ns as [|n0 ns IH]; intros start st name d n Hnth Hdec Hlast.
  - destruct d; discriminate.
  - destruct d as [|d]; simpl in Hnth.
    + inversion Hnth; subst n0. simpl.
      rewrite traverse_from_defs_none.
      * rewrite visit_defs, Hdec, String.eqb_refl. f_equal. lia.
      * intros j m Hj. apply (Hlast (S j) m); [lia | exact Hj].
    + simpl. rewrite (IH (S start) _ name d n Hnth Hdec).
      * f_equal. lia.
      * intros j m Hlt Hj. apply (Hlast (S j) m); [lia | exact Hj].
Qed.

Lemma recorded_declaration_inv sc name d :
  JSMap.get (typeDefinitions (traverse sc)) name = Some d ->
  exists n, get_node sc d = Some n /\ declares n = Some (name, false).
Proof.
  intros H. apply traverse_from_defs_inv in H.
  destruct H as [H | (n & _ & Hnth & Hdec)]; [discriminate|].
  exists n. rewrite Nat.sub_0_r in Hnth. auto.
Qed.

Lemma recorded_declaration_last sc name d n :
  get_node sc d = Some n ->
  declares n = Some (name, false) ->
  (forall j m, d < j -> get_node sc j = Some m ->
               declares m <> Some (name, false)) ->
  JSMap.get (typeDefinitions (traverse sc)) name = Some d.
Proof.
  intros Hn Hdec Hlast. unfold traverse.
  exact (traverse_from_defs_last (nodes sc) 0 create name d n Hn Hdec Hlast).
Qed.

(** ** The keys of the usage map are distinct *)

Lemma visit_usage_keys st node n :
  NoDup (JSMap.keys (typeUsageCount st)) ->
  NoDup (JSMap.keys (typeUsageCount (visit st node n))).
Proof.
  intros H. unfold visit.
  destruct (kind n) as [| id tp ta | id tp bd | tn | | | | | | | | | | | | ];
    auto.
  - unfold visit_TSTypeAliasDeclaration, record_declaration.
    destruct tp; simpl; auto.
    destruct (JSMap.has (typeUsageCount st) id); simpl; auto.
    now apply NoDup_keys_set.
  - unfold visit_TSInterfaceDeclaration, record_declaration.
    destruct tp; simpl; auto.
    destruct (JSMap.has (typeUsageCount st) id); simpl; auto.
    now apply NoDup_keys_set.
  - destruct tn; simpl; auto. now apply NoDup_keys_set.
Qed.

Lemma traverse_from_usage_keys ns : forall start st,
  NoDup (JSMap.keys (typeUsageCount st)) ->
  NoDup (JSMap.keys (typeUsageCount (traverse_from start ns st))).
Proof.
  induction ns as [|n ns IH]; intros start st H; simpl; auto.
  apply IH. now apply visit_usage_keys.
Qed.

Lemma traverse_usage_keys sc :
  NoDup (JSMap.keys (typeUsageCount (traverse sc))).
Proof. apply traverse_from_usage_keys. constructor. Qed.

(* ================================================================== *)
(** * [Program:exit]: which reports are made                            *)
(* ================================================================== *)

Lemma exit_iteration_Some st sc name count rep :
  exit_iteration st sc (name, count) = Some rep ->
  exists d r,
    JSMap.get (typeDefinitions st) name = Some d /\
    count = 1 /\
    isExported sc d = false /\
    JSMap.get (typeReferences st) name = Some [r] /\
    isInFunctionParameter sc r = true /\
    rep = mkReport d "preferInlineType" name (fix_callback sc d r).
Proof.
  unfold exit_iteration.
  destruct (JSMap.get (typeDefinitions st) name) as [d|]; [|discriminate].
  destruct (Nat.eqb_spec count 1) as [->|Hne]; simpl; [|discriminate].
  destruct (isExported sc d) eqn:Hexp; [discriminate|].
  destruct (JSMap.get (typeReferences st) name) as [[|r [|r' l]]|];
    try discriminate.
  destruct (isInFunctionParameter sc r) eqn:Hin; simpl; [|discriminate].
  intros [= <-]. exists d, r. repeat split; auto.
Qed.

Lemma exit_iteration_intro st sc name d r :
  JSMap.get (typeDefinitions st) name = Some d ->
  isExported sc d = false ->
  JSMap.get (typeReferences st) name = Some [r] ->
  isInFunctionParameter sc r = true ->
  exit_iteration st sc (name, 1)
  = Some (mkReport d "preferInlineType" name (fix_callback sc d r)).
Proof.
  intros Hd Hexp Hr Hin. unfold exit_iteration.
  now rewrite Hd, Hexp, Hr, Hin.
Qed.

Lemma exit_loop_In st sc es rep :
  In rep (exit_loop st sc es) ->
  exists e, In e es /\ exit_iteration st sc e = Some rep.
Proof.
  induction es as [|e es IH]; simpl; [tauto|].
  destruct (exit_iteration st sc e) as [r|] eqn:He.
  - intros [<-|H].
    + exists e. auto.
    + destruct (IH H) as (e' & Hin & He'). exists e'. auto.
  - intros H. destruct (IH H) as (e' & Hin & He'). exists e'. auto.
Qed.

(** The reports named [name] come from the usage entry of [name] alone. *)
Lemma exit_iteration_name st sc k c rep :
  exit_iteration st sc (k, c) = Some rep -> typeName rep = k.
Proof.
  intros He. apply exit_iteration_Some in He.
  now destruct He as (d & r & _ & _ & _ & _ & _ & ->).
Qed.

Lemma exit_loop_named st sc name : forall es,
  NoDup (map fst es) ->
  filter (fun x => String.eqb (typeName x) name) (exit_loop st sc es)
  = match JSMap.get es name with
    | Some c =>
        match exit_iteration st sc (name, c) with
        | Some rep => [rep]
        | None => []
        end
    | None => []
    end.
Proof.
  induction es as [|[k c] es IH]; intros Hnd; [reflexivity|].
  inversion Hnd as [|? ? Hnotin Hnd']; subst.
  specialize (IH Hnd').
  cbn [exit_loop JSMap.get].
  destruct (String.eqb_spec k name) as [->|Hne].
  - assert (Hnone : JSMap.get es name = None).
    { destruct (JSMap.get es name) as [c'|] eqn:Hg; auto.
      apply get_In in Hg. exfalso. apply Hnotin.
      change name with (fst (name, c')). now apply in_map. }
    rewrite Hnone in IH.
    destruct (exit_iteration st sc (name, c)) as [rep|] eqn:He; auto.
    cbn [filter]. rewrite IH.
    rewrite (exit_iteration_name _ _ _ _ _ He).
    now rewrite String.eqb_refl.
  - destruct (exit_iteration st sc (k, c)) as [rep|] eqn:He; auto.
    cbn [filter]. rewrite (exit_iteration_name _ _ _ _ _ He).
    apply String.eqb_neq in Hne. now rewrite Hne.
Qed.

(** Every report is for a recorded, non-generic, non-exported declaration
    whose name has exactly one reference, which passes the parameter
    check; the report names it and holds the fix for that reference. *)
Lemma report_inversion sc rep :
  In rep (run sc) ->
  exists n r,
    get_node sc (node rep) = Some n /\
    declares n = Some (typeName rep, false) /\
    JSMap.get (typeDefinitions (traverse sc)) (typeName rep)
    = Some (node rep) /\
    isExported sc (node rep) = false /\
    occurrences sc (typeName rep) = [r] /\
    isInFunctionParameter sc r = true /\
    fix_ rep = fix_callback sc (node rep) r.
Proof.
  intros H. unfold run, Program_exit in H.
  apply exit_loop_In in H. destruct H as ([name count] & _ & He).
  apply exit_iteration_Some in He.
  destruct He as (d & r & Hd & _ & Hexp & Hr & Hin & ->). simpl.
  destruct (recorded_declaration_inv sc name d Hd) as (n & Hn & Hdec).
  exists n, r. repeat split; auto.
  rewrite <- traverse_refs. unfold refs_or_nil. now rewrite Hr.
Qed.

(** Conversely, such a declaration gets exactly one report under its
    name. *)
Lemma report_intro sc name d r :
  JSMap.get (typeDefinitions (traverse sc)) name = Some d ->
  isExported sc d = false ->
  occurrences sc name = [r] ->
  isInFunctionParameter sc r = true ->
  filter (fun x => String.eqb (typeName x) name) (run sc)
  = [mkReport d "preferInlineType" name (fix_callback sc d r)].
Proof.
  intros Hd Hexp Hocc Hin. unfold run, Program_exit, JSMap.entries.
  rewrite exit_loop_named by apply traverse_usage_keys.
  pose proof (traverse_counts sc name) as Hc.
  pose proof (traverse_refs sc name) as Hl.
  rewrite Hocc in Hc, Hl. simpl in Hc.
  unfold count_or_zero in Hc. unfold refs_or_nil in Hl.
  destruct (JSMap.get (typeUsageCount (traverse sc)) name) as [c|];
    [subst c | discriminate].
  destruct (JSMap.get (typeReferences (traverse sc)) name) as [l|] eqn:Hg;
    [subst l | discriminate].
  now rewrite (exit_iteration_intro _ sc name d r Hd Hexp Hg Hin).
Qed.

(* ================================================================== *)
(** * Declarations that are never reported                              *)
(* ================================================================== *)

Lemma export_subject_isExported sc d :
  export_subject sc d -> isExported sc d = true.
Proof.
  intros (p & Hp & [Hk|Hk]); unfold isExported; now rewrite Hp, Hk.
Qed.

Lemma isExported_export_subject sc d :
  isExported sc d = true -> export_subject sc d.
Proof.
  unfold isExported, export_subject.
  destruct (parent_of sc d) as [p|]; [|discriminate].
  destruct (kind_of sc p) as [[]|] eqn:Hk; try discriminate; intros _;
    exists p; split; auto.
Qed.

(** A report under the name of a declaration that is the only one of its
    name is a report for that declaration. *)
Lemma report_node_of_name sc d name rep :
  only_declaration_of sc d name ->
  In rep (run sc) -> typeName rep = name -> node rep = d.
Proof.
  intros Honly Hin Hname.
  destruct (report_inversion sc rep Hin) as (n & r & Hn & Hdec & _).
  rewrite Hname in Hdec. exact (Honly _ _ _ Hn Hdec).
Qed.

(** Two or more [TSTypeReference] occurrences: a declaration whose name
    has two or more type-reference nodes in the file, wherever they are
    nested, is no candidate: no candidate report is for the declaration
    node and none is under its name.  Uses of the name in other node
    kinds are not counted (see [heritage_use_not_counted]). *)
Theorem reused_declaration_not_reported sc d n name tp :
  get_node sc d = Some n ->
  declares n = Some (name, tp) ->
  2 <= List.length (occurrences sc name) ->
  forall rep, In rep (run sc) -> node rep <> d /\ typeName rep <> name.
Proof.
  intros Hn Hdec Hcount rep Hin.
  destruct (report_inversion sc rep Hin)
    as (n' & r & Hn' & Hdec' & _ & _ & Hocc & _).
  assert (Hname : typeName rep <> name).
  { intros E. rewrite E in Hocc. rewrite Hocc in Hcount. simpl in Hcount.
    lia. }
  split; auto.
  intros E. rewrite E in Hn'. rewrite Hn in Hn'. inversion Hn'; subst n'.
  rewrite Hdec in Hdec'. inversion Hdec'. congruence.
Qed.

Lemma reused_declaration_not_reported_witness :
  2 <= List.length (occurrences ex_twice "P") /\
  forall rep, In rep (run ex_twice) -> node rep <> 1 /\ typeName rep <> "P".
Proof.
  split.
  - vm_compute. lia.
  - apply (reused_declaration_not_reported ex_twice 1
             (mkNode (TSTypeAliasDeclaration "P" false 3) (Some 0) (0, 23))
             "P" false).
    + reflexivity.
    + reflexivity.
    + vm_compute. lia.
Defined.

(** C5 fails on the code.  In [ex_heritage] the name [P] occurs twice in
    type position: in the [extends] clause of [Q] and as the annotation of
    the parameter [x].  The clause is a [TSInterfaceHeritage] node with
    an identifier, not a [TSTypeReference], and no visitor counts it: the
    usage count of [P] is 1, [P] is reported, and its fix deletes the
    declaration that [Q] still extends. *)
Theorem heritage_use_not_counted :
  wf_ast ex_heritage = true /\
  kind_of ex_heritage 10 = Some (OtherNode "TSInterfaceHeritage") /\
  parent_of ex_heritage 11 = Some 10 /\
  kind_of ex_heritage 11 = Some (Identifier "P") /\
  kind_of ex_heritage 21 = Some (TSTypeReference (IdentifierName "P")) /\
  JSMap.get (typeUsageCount (traverse ex_heritage)) "P" = Some 1 /\
  exists rep fixes,
    lint ex_heritage = mkOutcome [rep] true /\
    node rep = 1 /\
    typeName rep = "P" /\
    fix_ rep = FixEdits fixes /\
    apply_fixes (text ex_heritage) fixes = Some ex_heritage_fixed.
Proof.
  repeat (split; [reflexivity|]).
  eexists. eexists. repeat split; reflexivity.
Qed.

(** C7.  A declaration that is the immediate subject of an export clause
    gets no report, whatever its usage count and wherever it is used: no
    report is for the declaration node, and when it is the only declaration
    of its name no report is under its name. *)
Theorem exported_declaration_not_reported sc d :
  export_subject sc d ->
  forall rep, In rep (run sc) ->
    node rep <> d /\
    (forall name, only_declaration_of sc d name -> typeName rep <> name).
Proof.
  intros Hexp rep Hin.
  assert (Hnode : node rep <> d).
  { intros E.
    destruct (report_inversion sc rep Hin) as (n & r & _ & _ & _ & Hne & _).
    rewrite E in Hne. rewrite (export_subject_isExported sc d Hexp) in Hne.
    discriminate. }
  split; auto.
  intros name Honly E. apply Hnode.
  exact (report_node_of_name sc d name rep Honly Hin E).
Qed.

Lemma exported_declaration_not_reported_witness :
  export_subject ex_exported 2 /\
  forall rep, In rep (run ex_exported) ->
    node rep <> 2 /\
    (forall name, only_declaration_of ex_exported 2 name ->
                  typeName rep <> name).
Proof.
  assert (H : export_subject ex_exported 2).
  { exists 1. split; [reflexivity | left; reflexivity]. }
  split; [exact H|].
  exact (exported_declaration_not_reported ex_exported 2 H).
Defined.

(** C8.  A declaration that carries type parameters is skipped when it is
    visited: it is never the recorded declaration of any name, so it gets
    no report, whatever its usage count and wherever it is used: no report
    is for the declaration node, and when it is the only declaration of its
    name no report is under its name. *)
Theorem generic_declaration_not_reported sc d n name :
  get_node sc d = Some n ->
  declares n = Some (name, true) ->
  (forall name',
     JSMap.get (typeDefinitions (traverse sc)) name' <> Some d) /\
  (forall rep, In rep (run sc) ->
     node rep <> d /\ (only_declaration_of sc d name -> typeName rep <> name)).
Proof.
  intros Hn Hdec.
  assert (Hrec : forall name',
            JSMap.get (typeDefinitions (traverse sc)) name' <> Some d).
  { intros name' H. apply recorded_declaration_inv in H.
    destruct H as (n' & Hn' & Hdec'). congruence. }
  split; auto.
  intros rep Hin.
  assert (Hnode : node rep <> d).
  { intros E.
    destruct (report_inversion sc rep Hin) as (n' & r & _ & _ & Hd & _).
    rewrite E in Hd. exact (Hrec _ Hd). }
  split; auto.
  intros Honly E. apply Hnode. exact (report_node_of_name sc d name rep Honly Hin E).
Qed.

Lemma generic_declaration_not_reported_witness :
  (forall name',
     JSMap.get (typeDefinitions (traverse ex_generic)) name' <> Some 1) /\
  (forall rep, In rep (run ex_generic) ->
     node rep <> 1 /\
     (only_declaration_of ex_generic 1 "P" -> typeName rep <> "P")).
Proof.
  apply (generic_declaration_not_reported ex_generic 1
           (mkNode (TSTypeAliasDeclaration "P" true 6) (Some 0) (0, 21)) "P").
  - reflexivity.
  - reflexivity.
Defined.

(* ================================================================== *)
(** * The parameter check finds a parameter annotation                  *)
(* ================================================================== *)

Lemma includes_In ps p : includes ps p = true <-> In p ps.
Proof.
  unfold includes. rewrite existsb_exists. split.
  - intros (x & Hx & E). apply Nat.eqb_eq in E. now subst.
  - intros H. exists p. split; auto. apply Nat.eqb_refl.
Qed.

Lemma init_function_params_Some sc init ps :
  init_function_params sc init = Some ps ->
  exists f fk, init = Some f /\ kind_of sc f = Some fk /\
               function_params fk = Some ps.
Proof.
  unfold init_function_params. destruct init as [f|]; [|discriminate].
  destruct (kind_of sc f) as [k|] eqn:Hk; [|discriminate].
  destruct k; try discriminate; intros [= <-];
    exists f; eexists; (split; [reflexivity | split; [exact Hk | reflexivity]]).
Qed.

Lemma kind_of_get_node sc a an :
  get_node sc a = Some an -> kind_of sc a = Some (kind an).
Proof. intros H. unfold kind_of. now rewrite H. Qed.

Lemma parent_of_get_node sc a an :
  get_node sc a = Some an -> parent_of sc a = parent an.
Proof. intros H. unfold parent_of. now rewrite H. Qed.

(** When an iteration of the inner loop returns [true], the annotated node
    is listed in the parameters of some function. *)
Lemma ancestor_body_true sc a an p :
  get_node sc a = Some an ->
  ancestor_body sc an p = Some true ->
  exists f fk ps,
    kind_of sc f = Some fk /\ function_params fk = Some ps /\ In p ps.
Proof.
  intros Ha. apply kind_of_get_node in Ha. unfold ancestor_body. intros H.
  destruct (kind an) as [| | | | | | | | | ps | ps | ps | init | | | ]
    eqn:Hk; try discriminate.
  - exists a, (FunctionDeclaration ps), ps. repeat split; auto.
    apply includes_In. congruence.
  - exists a, (FunctionExpression ps), ps. repeat split; auto.
    apply includes_In. congruence.
  - exists a, (ArrowFunctionExpression ps), ps. repeat split; auto.
    apply includes_In. congruence.
  - destruct (init_function_params sc init) as [ps|] eqn:Hi;
      [|discriminate].
    apply init_function_params_Some in Hi.
    destruct Hi as (f & fk & _ & Hf & Hps).
    exists f, fk, ps. repeat split; auto.
    apply includes_In. congruence.
Qed.

Lemma ancestor_loop_true sc p : forall fuel anc,
  ancestor_loop fuel sc anc p = Some true ->
  exists f fk ps,
    kind_of sc f = Some fk /\ function_params fk = Some ps /\ In p ps.
Proof.
  induction fuel as [|fuel IH]; intros anc H; simpl in H; [discriminate|].
  destruct anc as [a|]; [|discriminate].
  destruct (get_node sc a) as [an|] eqn:Ha; [|discriminate].
  destruct (ancestor_body sc an p) as [b|] eqn:Hb.
  - inversion H; subst b. exact (ancestor_body_true sc a an p Ha Hb).
  - exact (IH _ H).
Qed.

Lemma annotation_body_true sc c cn target :
  get_node sc c = Some cn ->
  kind cn = TSTypeAnnotation target ->
  annotation_body sc cn = Some true ->
  parameter_annotation sc c.
Proof.
  intros Hc Hk H. unfold annotation_body in H.
  destruct (parent cn) as [p|] eqn:Hp; [|discriminate].
  assert (Hloop : ancestor_loop (List.length (nodes sc)) sc
                    (parent_of sc p) p = Some true).
  { destruct (kind_of sc p) as [[]|]; try discriminate; exact H. }
  destruct (ancestor_loop_true sc p _ _ Hloop) as (f & fk & ps & Hf & Hps & Hin).
  exists target, p, f, fk, ps. repeat split; auto.
  - rewrite (kind_of_get_node sc c cn Hc). now rewrite Hk.
  - now rewrite (parent_of_get_node sc c cn Hc).
Qed.

(** When the outer loop returns [true], the node it started from, or one
    of its ancestors, is the type annotation of a function parameter. *)
Lemma current_loop_true sc : forall fuel c,
  current_loop fuel sc (Some c) = true ->
  exists a, (a = c \/ ancestor sc c a) /\ parameter_annotation sc a.
Proof.
  induction fuel as [|fuel IH]; intros c H; simpl in H; [discriminate|].
  destruct (get_node sc c) as [cn|] eqn:Hc; [|discriminate].
  destruct (current_body sc cn) as [b|] eqn:Hb.
  - subst b. unfold current_body in Hb.
    destruct (kind cn) eqn:Hk; try discriminate.
    exists c. split; auto.
    exact (annotation_body_true sc c cn _ Hc Hk Hb).
  - destruct (parent cn) as [q|] eqn:Hq.
    + destruct (IH q H) as (a & Ha & Hpa).
      assert (Hpq : parent_of sc c = Some q).
      { now rewrite (parent_of_get_node sc c cn Hc). }
      exists a. split; auto. right.
      destruct Ha as [->|Ha].
      * now apply ancestor_parent.
      * now apply ancestor_step with q.
    + destruct fuel; discriminate.
Qed.

Lemma occurrences_from_In name r : forall ns start,
  In r (occurrences_from start ns name) ->
  exists n, start <= r /\ nth_error ns (r - start) = Some n /\
            is_reference_to name n = true.
Proof.
  induction ns as [|n ns IH]; intros start H; simpl in H; [tauto|].
  assert (Hrest : In r (occurrences_from (S start) ns name) ->
            exists m, start <= r /\ nth_error (n :: ns) (r - start) = Some m /\
                      is_reference_to name m = true).
  { intros H'. destruct (IH _ H') as (m & Hle & Hnth & Hm).
    exists m. split; [lia|]. split; auto.
    replace (r - start) with (S (r - S start)) by lia. exact Hnth. }
  destruct (is_reference_to name n) eqn:Hr; auto.
  destruct H as [<-|H]; auto.
  exists n. rewrite Nat.sub_diag. auto.
Qed.

Lemma occurrence_is_reference sc name r :
  In r (occurrences sc name) ->
  kind_of sc r = Some (TSTypeReference (IdentifierName name)).
Proof.
  intros H. apply occurrences_from_In in H.
  destruct H as (n & _ & Hnth & Href). rewrite Nat.sub_0_r in Hnth.
  rewrite (kind_of_get_node sc r n Hnth).
  unfold is_reference_to in Href.
  destruct (kind n) as [| | | [nm| |] | | | | | | | | | | | | ];
    try discriminate.
  apply String.eqb_eq in Href. now subst.
Qed.

(** The check accepts a reference only if it lies inside the type
    annotation of a function parameter. *)
Lemma isInFunctionParameter_sound sc name r :
  In r (occurrences sc name) ->
  isInFunctionParameter sc r = true ->
  in_parameter_annotation sc r.
Proof.
  intros Hocc H. apply current_loop_true in H.
  destruct H as (a & [->|Ha] & Hpa).
  - destruct Hpa as (t & p & f & fk & ps & Hk & _).
    rewrite (occurrence_is_reference sc name r Hocc) in Hk. discriminate.
  - exists a. auto.
Qed.

(** C6.  A declaration whose single type-reference occurrence does not lie
    inside the type annotation of any function parameter (it annotates a
    variable, a return type, a class member, ...) gets no report: no report
    is for the declaration node and none is under its name. *)
Theorem non_parameter_use_not_reported sc d n name tp r :
  get_node sc d = Some n ->
  declares n = Some (name, tp) ->
  occurrences sc name = [r] ->
  ~ in_parameter_annotation sc r ->
  forall rep, In rep (run sc) -> node rep <> d /\ typeName rep <> name.
Proof.
  intros Hn Hdec Hocc Hnot rep Hin.
  destruct (report_inversion sc rep Hin)
    as (n' & r' & Hn' & Hdec' & _ & _ & Hocc' & Hcheck & _).
  assert (Hname : typeName rep <> name).
  { intros E. rewrite E in Hocc'. rewrite Hocc in Hocc'.
    inversion Hocc'; subst r'. apply Hnot.
    apply isInFunctionParameter_sound with name; auto.
    rewrite Hocc. now left. }
  split; auto.
  intros E. rewrite E in Hn'. rewrite Hn in Hn'. inversion Hn'; subst n'.
  rewrite Hdec in Hdec'. inversion Hdec'. congruence.
Qed.

(** A file without functions has no parameter annotation. *)
Lemma no_function_no_parameter_annotation sc :
  forallb (fun n => match function_params (kind n) with
                    | Some _ => false
                    | None => true
                    end) (nodes sc) = true ->
  forall r, ~ in_parameter_annotation sc r.
Proof.
  intros Hall r (a & _ & (t & p & f & fk & ps & _ & _ & Hf & Hps & _)).
  rewrite forallb_forall in Hall.
  unfold kind_of in Hf. destruct (get_node sc f) as [fn|] eqn:Hfn;
    [|discriminate].
  simpl in Hf. inversion Hf; subst fk.
  apply nth_error_In in Hfn. specialize (Hall fn Hfn).
  now rewrite Hps in Hall.
Qed.

Lemma non_parameter_use_not_reported_witness :
  occurrences ex_variable "C" = [12] /\
  ~ in_parameter_annotation ex_variable 12 /\
  forall rep, In rep (run ex_variable) ->
    node rep <> 1 /\ typeName rep <> "C".
Proof.
  assert (H : ~ in_parameter_annotation ex_variable 12).
  { apply no_function_no_parameter_annotation. reflexivity. }
  split; [reflexivity|]. split; [exact H|].
  apply (non_parameter_use_not_reported ex_variable 1
           (mkNode (TSTypeAliasDeclaration "C" false 3) (Some 0) (0, 24))
           "C" false 12).
  - reflexivity.
  - reflexivity.
  - reflexivity.
  - exact H.
Defined.

(* ================================================================== *)
(** * Well-formed trees: what [wf_ast] gives                            *)
(* ================================================================== *)

Section WellFormed.

Variable sc : SourceCode.
Hypothesis Hwf : wf_ast sc = true.

Lemma wf_nodes_from_nth ns : forall start i n,
  wf_nodes_from sc start ns = true ->
  nth_error ns i = Some n ->
  wf_node sc (start + i) n = true.
Proof.
  induction ns as [|m ns IH]; intros start i n H Hi.
  - destruct i; discriminate.
  - simpl in H. apply andb_prop in H. destruct H as [Hm Hrest].
    destruct i as [|i]; simpl in Hi.
    + inversion Hi; subst. now rewrite Nat.add_0_r.
    + rewrite <- Nat.add_succ_comm. now apply IH.
Qed.

Lemma wf_program : kind_of sc (ast sc) = Some Program.
Proof.
  unfold wf_ast in Hwf.
  destruct (kind_of sc (ast sc)) as [[]|]; try discriminate. reflexivity.
Qed.

Lemma wf_node_at i n : get_node sc i = Some n -> wf_node sc i n = true.
Proof.
  intros H. unfold wf_ast in Hwf. rewrite wf_program in Hwf.
  exact (wf_nodes_from_nth (nodes sc) 0 i n Hwf H).
Qed.

Lemma wf_parent_precedes i n p :
  get_node sc i = Some n -> parent n = Some p -> p < i.
Proof.
  intros Hn Hp. pose proof (wf_node_at i n Hn) as H.
  unfold wf_node in H. rewrite Hp in H.
  repeat (apply andb_prop in H; destruct H as [H ?]).
  now apply Nat.ltb_lt.
Qed.

Lemma wf_root i n :
  get_node sc i = Some n -> parent n = None -> i = ast sc.
Proof.
  intros Hn Hp. pose proof (wf_node_at i n Hn) as H.
  unfold wf_node in H. rewrite Hp in H.
  repeat (apply andb_prop in H; destruct H as [H ?]).
  now apply Nat.eqb_eq.
Qed.

Lemma wf_annotation_child i p target :
  parent_of sc i = Some p ->
  kind_of sc p = Some (TSTypeAnnotation target) ->
  target = i.
Proof.
  intros Hp Hk. unfold parent_of in Hp.
  destruct (get_node sc i) as [n|] eqn:Hn; [|discriminate].
  pose proof (wf_node_at i n Hn) as H.
  unfold wf_node in H. rewrite Hp, Hk in H.
  repeat (apply andb_prop in H; destruct H as [H ?]).
  now apply Nat.eqb_eq.
Qed.

Lemma wf_param_child f fk ps p :
  kind_of sc f = Some fk ->
  function_params fk = Some ps ->
  In p ps ->
  parent_of sc p = Some f.
Proof.
  intros Hk Hps Hin. unfold kind_of in Hk.
  destruct (get_node sc f) as [fn|] eqn:Hfn; [|discriminate].
  simpl in Hk. inversion Hk; subst fk.
  pose proof (wf_node_at f fn Hfn) as H.
  unfold wf_node in H. rewrite Hps in H.
  apply andb_prop in H. destruct H as [H _].
  apply andb_prop in H. destruct H as [_ H].
  rewrite forallb_forall in H. specialize (H p Hin).
  destruct (parent_of sc p) as [q|]; [|discriminate].
  apply Nat.eqb_eq in H. now subst.
Qed.

Lemma wf_range_ordered i :
  fst (range_of sc i) <= snd (range_of sc i).
Proof.
  unfold range_of. destruct (get_node sc i) as [n|] eqn:Hn; simpl; auto.
  pose proof (wf_node_at i n Hn) as H. unfold wf_node in H.
  apply andb_prop in H. destruct H as [_ H]. now apply Nat.leb_le.
Qed.

Lemma get_node_lt i n : get_node sc i = Some n -> i < List.length (nodes sc).
Proof.
  intros H. apply nth_error_Some. unfold get_node in H. congruence.
Qed.

(** ** The fuel of the loops is enough *)

Lemma ancestor_loop_None fuel p : ancestor_loop fuel sc None p = None.
Proof. now destruct fuel. Qed.

Lemma current_loop_None fuel : current_loop fuel sc None = false.
Proof. now destruct fuel. Qed.

Lemma ancestor_loop_fuel p : forall fuel1 fuel2 a,
  a < fuel1 -> a < fuel2 ->
  ancestor_loop fuel1 sc (Some a) p = ancestor_loop fuel2 sc (Some a) p.
Proof.
  induction fuel1 as [|fuel1 IH]; intros fuel2 a H1 H2; [lia|].
  destruct fuel2 as [|fuel2]; [lia|]. simpl.
  destruct (get_node sc a) as [an|] eqn:Ha; auto.
  destruct (ancestor_body sc an p); auto.
  destruct (parent an) as [q|] eqn:Hq.
  - pose proof (wf_parent_precedes a an q Ha Hq). apply IH; lia.
  - now rewrite !ancestor_loop_None.
Qed.

Lemma current_loop_fuel : forall fuel1 fuel2 c,
  c < fuel1 -> c < fuel2 ->
  current_loop fuel1 sc (Some c) = current_loop fuel2 sc (Some c).
Proof.
  induction fuel1 as [|fuel1 IH]; intros fuel2 c H1 H2; [lia|].
  destruct fuel2 as [|fuel2]; [lia|]. simpl.
  destruct (get_node sc c) as [cn|] eqn:Hc; auto.
  destruct (current_body sc cn); auto.
  destruct (parent cn) as [q|] eqn:Hq.
  - pose proof (wf_parent_precedes c cn q Hc Hq). apply IH; lia.
  - now rewrite !current_loop_None.
Qed.

Lemma getTopLevelStatement_loop_fuel prog : forall fuel1 fuel2 c,
  c < fuel1 -> c < fuel2 ->
  getTopLevelStatement_loop fuel1 sc c prog
  = getTopLevelStatement_loop fuel2 sc c prog.
Proof.
  induction fuel1 as [|fuel1 IH]; intros fuel2 c H1 H2; [lia|].
  destruct fuel2 as [|fuel2]; [lia|]. simpl.
  unfold parent_of.
  destruct (get_node sc c) as [cn|] eqn:Hc; auto.
  destruct (parent cn) as [q|] eqn:Hq; auto.
  destruct (q =? prog); auto.
  pose proof (wf_parent_precedes c cn q Hc Hq). apply IH; lia.
Qed.

(** On a well-formed tree the loops satisfy the equations of the source
    loops: the fuel never runs out. *)
Lemma ancestor_loop_unfold a an p :
  get_node sc a = Some an ->
  ancestor_loop (List.length (nodes sc)) sc (Some a) p
  = match ancestor_body sc an p with
    | Some b => Some b
    | None => ancestor_loop (List.length (nodes sc)) sc (parent an) p
    end.
Proof.
  intros Ha. pose proof (get_node_lt a an Ha) as Hlt.
  transitivity (ancestor_loop (S (List.length (nodes sc))) sc (Some a) p).
  - apply ancestor_loop_fuel; lia.
  - cbn [ancestor_loop]. now rewrite Ha.
Qed.

Lemma isInFunctionParameter_unfold c cn :
  get_node sc c = Some cn ->
  isInFunctionParameter sc c
  = match current_body sc cn with
    | Some b => b
    | None =>
        match parent cn with
        | Some q => isInFunctionParameter sc q
        | None => false
        end
    end.
Proof.
  intros Hc. pose proof (get_node_lt c cn Hc) as Hlt.
  unfold isInFunctionParameter.
  transitivity (current_loop (S (List.length (nodes sc))) sc (Some c)).
  - apply current_loop_fuel; lia.
  - cbn [current_loop]. rewrite Hc.
    destruct (current_body sc cn); auto.
    destruct (parent cn); auto. apply current_loop_None.
Qed.

Lemma getTopLevelStatement_unfold c :
  getTopLevelStatement sc c (ast sc)
  = match parent_of sc c with
    | Some q =>
        if q =? ast sc then c else getTopLevelStatement sc q (ast sc)
    | None => c
    end.
Proof.
  unfold getTopLevelStatement.
  destruct (parent_of sc c) as [q|] eqn:Hp.
  - assert (Hlt : c < List.length (nodes sc)).
    { unfold parent_of in Hp.
      destruct (get_node sc c) as [cn|] eqn:Hc; [|discriminate].
      exact (get_node_lt c cn Hc). }
    transitivity (getTopLevelStatement_loop (S (List.length (nodes sc)))
                    sc c (ast sc)).
    + apply getTopLevelStatement_loop_fuel; lia.
    + cbn [getTopLevelStatement_loop]. now rewrite Hp.
  - destruct (List.length (nodes sc)); simpl; auto. now rewrite Hp.
Qed.

End WellFormed.

(* ================================================================== *)
(** * The parameter check on well-formed trees                          *)
(* ================================================================== *)

Lemma parent_of_Some_node sc i p :
  parent_of sc i = Some p ->
  exists n, get_node sc i = Some n /\ parent n = Some p.
Proof.
  unfold parent_of. destruct (get_node sc i) as [n|]; [|discriminate].
  intros H. exists n. auto.
Qed.

Lemma kind_of_Some_node sc i k :
  kind_of sc i = Some k ->
  exists n, get_node sc i = Some n /\ kind n = k.
Proof.
  unfold kind_of. destruct (get_node sc i) as [n|]; [|discriminate].
  simpl. intros [= <-]. exists n. auto.
Qed.

Lemma not_binding_annotation_body sc c cn :
  get_node sc c = Some cn ->
  binding_annotation sc c = false ->
  current_body sc cn = None.
Proof.
  intros Hc H. unfold binding_annotation in H.
  rewrite (kind_of_get_node sc c cn Hc) in H.
  rewrite (parent_of_get_node sc c cn Hc) in H.
  unfold current_body, annotation_body.
  destruct (kind cn); auto.
  destruct (parent cn) as [p|]; auto.
  destruct (kind_of sc p) as [[]|]; auto; discriminate.
Qed.

Lemma binding_annotation_body sc c cn :
  get_node sc c = Some cn ->
  binding_annotation sc c = true ->
  exists p,
    parent cn = Some p /\
    current_body sc cn
    = ancestor_loop (List.length (nodes sc)) sc (parent_of sc p) p.
Proof.
  intros Hc H. unfold binding_annotation in H.
  rewrite (kind_of_get_node sc c cn Hc) in H.
  rewrite (parent_of_get_node sc c cn Hc) in H.
  unfold current_body, annotation_body.
  destruct (kind cn); try discriminate.
  destruct (parent cn) as [p|]; [|discriminate].
  exists p. split; auto.
  destruct (kind_of sc p) as [[]|]; auto; discriminate.
Qed.

(** On a well-formed tree the check accepts a reference whose innermost
    binding annotation is attached to a listed parameter. *)
Lemma isInFunctionParameter_complete sc r a :
  wf_ast sc = true ->
  innermost_binding_annotation sc r a ->
  annotates_listed_parameter sc a ->
  isInFunctionParameter sc r = true.
Proof.
  intros Hwf Hpath (p & f & fk & ps & Hap & Hpf & Hfk & Hps & Hin).
  induction Hpath as [n a Hn Hna Ha | n q a Hn Hnq Hpath IH].
  - destruct (parent_of_Some_node sc n a Hna) as (nn & Hnn & Hpn).
    rewrite (isInFunctionParameter_unfold sc Hwf n nn Hnn).
    rewrite (not_binding_annotation_body sc n nn Hnn Hn), Hpn.
    destruct (parent_of_Some_node sc a p Hap) as (an & Han & Hpa).
    rewrite (isInFunctionParameter_unfold sc Hwf a an Han).
    destruct (binding_annotation_body sc a an Han Ha) as (p' & Hp' & ->).
    assert (p' = p) by congruence. subst p'.
    rewrite Hpf.
    destruct (kind_of_Some_node sc f fk Hfk) as (fn & Hfn & Hkf).
    rewrite (ancestor_loop_unfold sc Hwf f fn p Hfn).
    assert (Hbody : ancestor_body sc fn p = Some true).
    { unfold ancestor_body. rewrite Hkf.
      apply includes_In in Hin.
      destruct fk; try discriminate; simpl in Hps;
        inversion Hps; subst; now rewrite Hin. }
    now rewrite Hbody.
  - destruct (parent_of_Some_node sc n q Hnq) as (nn & Hnn & Hpn).
    rewrite (isInFunctionParameter_unfold sc Hwf n nn Hnn).
    rewrite (not_binding_annotation_body sc n nn Hnn Hn), Hpn.
    exact (IH Hap).
Qed.

Lemma occurrences_from_intro name : forall ns start i n,
  nth_error ns i = Some n ->
  is_reference_to name n = true ->
  In (start + i) (occurrences_from start ns name).
Proof.
  induction ns as [|m ns IH]; intros start i n Hi Hr.
  - destruct i; discriminate.
  - destruct i as [|i]; simpl in Hi.
    + inversion Hi; subst m. simpl. rewrite Hr. left. lia.
    + simpl. rewrite <- Nat.add_succ_comm.
      destruct (is_reference_to name m); [right|]; now apply IH with n.
Qed.

Lemma reference_is_occurrence sc name r :
  kind_of sc r = Some (TSTypeReference (IdentifierName name)) ->
  In r (occurrences sc name).
Proof.
  intros Hk. destruct (kind_of_Some_node sc r _ Hk) as (rn & Hrn & Hkr).
  apply (occurrences_from_intro name (nodes sc) 0 r rn Hrn).
  unfold is_reference_to. rewrite Hkr. apply String.eqb_refl.
Qed.

(** A reference that fails the check bars every report under its name and
    for every declaration of its name. *)
Lemma rejected_reference_no_report sc name r :
  kind_of sc r = Some (TSTypeReference (IdentifierName name)) ->
  isInFunctionParameter sc r = false ->
  forall rep, In rep (run sc) ->
    typeName rep <> name /\
    (forall d n tp, get_node sc d = Some n ->
                    declares n = Some (name, tp) -> node rep <> d).
Proof.
  intros Hk Hfalse rep Hin.
  destruct (report_inversion sc rep Hin)
    as (n' & r' & Hn' & Hdec' & _ & _ & Hocc & Hcheck & _).
  assert (Hname : typeName rep <> name).
  { intros E. rewrite E in Hocc.
    pose proof (reference_is_occurrence sc name r Hk) as Hr.
    rewrite Hocc in Hr. destruct Hr as [->|[]]. congruence. }
  split; auto.
  intros d n tp Hn Hdec E. rewrite E in Hn'. rewrite Hn in Hn'.
  inversion Hn'; subst n'. rewrite Hdec in Hdec'. inversion Hdec'.
  congruence.
Qed.

(** C10.  When a function lists an assignment pattern among its parameters
    (a parameter with a default value) and the pattern on its left is a
    destructuring pattern whose type annotation is the reference, the
    parameter check returns false for the reference: the annotated pattern
    is compared with the listed parameters by identity and the listed one
    is the assignment pattern.  No report is then made under the
    reference's name, nor for any declaration of that name. *)
Theorem default_valued_pattern_not_flagged
    sc name r a target p w f fk ps :
  wf_ast sc = true ->
  kind_of sc r = Some (TSTypeReference (IdentifierName name)) ->
  parent_of sc r = Some a ->
  kind_of sc a = Some (TSTypeAnnotation target) ->
  parent_of sc a = Some p ->
  kind_of sc p = Some ObjectPattern \/ kind_of sc p = Some ArrayPattern ->
  parent_of sc p = Some w ->
  kind_of sc w = Some AssignmentPattern ->
  kind_of sc f = Some fk ->
  function_params fk = Some ps ->
  In w ps ->
  isInFunctionParameter sc r = false /\
  forall rep, In rep (run sc) ->
    typeName rep <> name /\
    (forall d n tp, get_node sc d = Some n ->
                    declares n = Some (name, tp) -> node rep <> d).
Proof.
  intros Hwf Hr Hra Ha Hap Hp Hpw Hw Hf Hps Hin.
  assert (Hfalse : isInFunctionParameter sc r = false).
  { destruct (kind_of_Some_node sc r _ Hr) as (rn & Hrn & Hkr).
    rewrite (isInFunctionParameter_unfold sc Hwf r rn Hrn).
    unfold current_body at 1. rewrite Hkr.
    rewrite <- (parent_of_get_node sc r rn Hrn), Hra.
    destruct (kind_of_Some_node sc a _ Ha) as (an & Han & Hka).
    rewrite (isInFunctionParameter_unfold sc Hwf a an Han).
    unfold current_body, annotation_body. rewrite Hka.
    rewrite <- (parent_of_get_node sc a an Han), Hap.
    assert (Hloop : ancestor_loop (List.length (nodes sc)) sc
                      (parent_of sc p) p = Some false).
    { rewrite Hpw.
      destruct (kind_of_Some_node sc w _ Hw) as (wn & Hwn & Hkw).
      rewrite (ancestor_loop_unfold sc Hwf w wn p Hwn).
      unfold ancestor_body at 1. rewrite Hkw.
      pose proof (wf_param_child sc Hwf f fk ps w Hf Hps Hin) as Hwf'.
      rewrite <- (parent_of_get_node sc w wn Hwn), Hwf'.
      assert (Hnot : includes ps p = false).
      { destruct (includes ps p) eqn:Hinc; auto.
        apply includes_In in Hinc.
        pose proof (wf_param_child sc Hwf f fk ps p Hf Hps Hinc) as Hpf.
        assert (w = f) by congruence. subst w.
        assert (fk = AssignmentPattern) by congruence. subst fk.
        discriminate Hps. }
      destruct (kind_of_Some_node sc f _ Hf) as (fn & Hfn & Hkf).
      rewrite (ancestor_loop_unfold sc Hwf f fn p Hfn).
      unfold ancestor_body. rewrite Hkf.
      destruct fk; try discriminate; simpl in Hps;
        inversion Hps; subst; now rewrite Hnot. }
    destruct Hp as [Hp|Hp]; rewrite Hp, Hloop; reflexivity. }
  split; auto.
  exact (rejected_reference_no_report sc name r Hr Hfalse).
Qed.

Lemma default_valued_pattern_not_flagged_witness :
  wf_ast ex_default = true /\
  isInFunctionParameter ex_default 15 = false /\
  forall rep, In rep (run ex_default) ->
    typeName rep <> "P" /\
    (forall d n tp, get_node ex_default d = Some n ->
                    declares n = Some ("P", tp) -> node rep <> d).
Proof.
  split; [reflexivity|].
  apply (default_valued_pattern_not_flagged ex_default "P" 15 14 15 11 10 8
           (FunctionDeclaration [10]) [10]).
  - reflexivity.
  - reflexivity.
  - reflexivity.
  - reflexivity.
  - reflexivity.
  - left. reflexivity.
  - reflexivity.
  - reflexivity.
  - reflexivity.
  - reflexivity.
  - simpl. auto.
Defined.

(* ================================================================== *)
(** * The loop as it runs: reports made and candidate reports           *)
(* ================================================================== *)

Lemma context_report_Some descriptor rep :
  context_report descriptor = Some rep -> rep = descriptor.
Proof.
  unfold context_report. destruct (fix_ descriptor) as [|fs].
  - now intros [= <-].
  - destruct (fixes_overlap fs); [discriminate | now intros [= <-]].
Qed.

(** The reports made are the candidates up to the first one that
    [context.report] refuses. *)
Lemma report_loop_prefix st sc : forall es,
  exists rest, exit_loop st sc es = made (report_loop st sc es) ++ rest.
Proof.
  induction es as [|e es IH]; simpl.
  - now exists [].
  - destruct (exit_iteration st sc e) as [descriptor|]; auto.
    destruct (context_report descriptor) as [rep|] eqn:Hc; simpl.
    + apply context_report_Some in Hc. subst rep.
      destruct IH as (rest & ->). now exists rest.
    + now exists (descriptor :: exit_loop st sc es).
Qed.

Lemma report_loop_completed st sc : forall es,
  completed (report_loop st sc es) = true ->
  made (report_loop st sc es) = exit_loop st sc es.
Proof.
  induction es as [|e es IH]; simpl; auto.
  destruct (exit_iteration st sc e) as [descriptor|]; auto.
  destruct (context_report descriptor) as [rep|] eqn:Hc; simpl;
    [|discriminate].
  apply context_report_Some in Hc. subst rep.
  intros H. now rewrite IH.
Qed.


Lemma report_loop_made_accepted st sc : forall es rep,
  In rep (made (report_loop st sc es)) -> context_report rep = Some rep.
Proof.
  induction es as [|e es IH]; intros rep; simpl; [tauto|].
  destruct (exit_iteration st sc e) as [descriptor|]; auto.
  destruct (context_report descriptor) as [rep'|] eqn:Hc; simpl; [|tauto].
  pose proof (context_report_Some _ _ Hc). subst rep'.
  intros [<-|H]; auto.
Qed.

(** Every report the rule makes is a candidate report whose fix has no
    overlapping edits. *)
Lemma made_report_is_candidate sc rep :
  In rep (made (lint sc)) ->
  In rep (run sc) /\ context_report rep = Some rep.
Proof.
  intros H. split.
  - unfold run, Program_exit.
    destruct (report_loop_prefix (traverse sc) sc
                (JSMap.entries (typeUsageCount (traverse sc)))) as (rest & ->).
    apply in_or_app. now left.
  - exact (report_loop_made_accepted _ _ _ _ H).
Qed.

(** When the loop reaches its end the reports made are the candidates. *)
Lemma completed_made_run sc :
  completed (lint sc) = true -> made (lint sc) = run sc.
Proof. apply report_loop_completed. Qed.


(** The harness refuses the fixes that the consumer's pass cannot apply. *)
Lemma apply_sorted_None t : forall fs lastPos,
  apply_sorted t lastPos fs = None <-> overlap_sorted lastPos fs = true.
Proof.
  induction fs as [|f fs IH]; intros lastPos; simpl.
  - split; discriminate.
  - destruct (fst (fix_range f) <? lastPos); simpl; [tauto|].
    rewrite <- IH.
    destruct (apply_sorted t (snd (fix_range f)) fs); split;
      congruence.
Qed.

Lemma fixes_overlap_apply t fs :
  apply_fixes t fs = None <-> fixes_overlap fs = true.
Proof. apply apply_sorted_None. Qed.

(* ================================================================== *)
(** * Eligible declarations are reported                                *)
(* ================================================================== *)

Lemma last_declaration_of_spec sc d name :
  last_declaration_of sc d name = true ->
  forall j m, d < j -> get_node sc j = Some m ->
              declares m <> Some (name, false).
Proof.
  unfold last_declaration_of. rewrite forallb_forall.
  intros H j m Hlt Hj Hdec.
  assert (Hin : In m (skipn (S d) (nodes sc))).
  { apply nth_error_In with (j - S d).
    rewrite nth_error_skipn. replace (S d + (j - S d)) with j by lia.
    exact Hj. }
  specialize (H m Hin). unfold recordable_as in H.
  rewrite Hdec, String.eqb_refl in H. discriminate.
Qed.








(** Two more files on which C1 as stated fails: the single occurrence lies
    inside the annotation of the parameter [cb], as the parameter type of a
    function type; and the single occurrence annotates a destructured
    parameter that has a default value. *)
Example callback_parameter_type_not_reported :
  occurrences ex_callback "P" = [15] /\
  in_parameter_annotation ex_callback 15 /\
  run ex_callback = [].
Proof.
  repeat split; try reflexivity.
  exists 11. split.
  - apply ancestor_step with 14; [reflexivity|].
    apply ancestor_step with 13; [reflexivity|].
    apply ancestor_step with 12; [reflexivity|].
    apply ancestor_parent. reflexivity.
  - exists 12, 10, 8, (FunctionDeclaration [10]), [10].
    repeat split; try reflexivity. simpl. auto.
Qed.

Example default_valued_parameter_not_reported :
  occurrences ex_default "P" = [15] /\ run ex_default = [].
Proof. split; reflexivity. Qed.

(* ================================================================== *)
(** * When a report carries no fix                                      *)
(* ================================================================== *)

Lemma getTypeBody_declaration sc d n name tp :
  get_node sc d = Some n ->
  declares n = Some (name, tp) ->
  getTypeBody sc d = Some (declaration_body_text sc n).
Proof.
  intros Hn Hdec. unfold getTypeBody, declaration_body_text, declaration_body.
  rewrite (kind_of_get_node sc d n Hn). unfold declares in Hdec.
  destruct (kind n); try discriminate; reflexivity.
Qed.










(* ================================================================== *)
(** * The fix: its two edits and the text they produce                  *)
(* ================================================================== *)

Lemma char_at_is_skipn t pos c :
  char_at_is t pos c
  = match skipn pos t with
    | c' :: _ => Ascii.eqb c' c
    | [] => false
    end.
Proof.
  unfold char_at_is.
  pose proof (nth_error_skipn pos t 0) as H. rewrite Nat.add_0_r in H.
  rewrite <- H.
  destruct (skipn pos t) as [|c' rest] eqn:Hs; simpl.
  - apply andb_false_r.
  - assert (Hlt : pos < List.length t).
    { apply nth_error_Some. rewrite <- H. discriminate. }
    apply Nat.ltb_lt in Hlt. now rewrite Hlt.
Qed.

(** The [endPos] adjustment steps over exactly the line terminator that
    follows the statement. *)
Lemma skip_line_terminator_spec t pos :
  skip_line_terminator t pos
  = pos + List.length (line_terminator_at t pos).
Proof.
  unfold skip_line_terminator, line_terminator_at.
  rewrite !char_at_is_skipn.
  replace (skipn (pos + 1) t) with (skipn 1 (skipn pos t))
    by (rewrite skipn_skipn; f_equal; lia).
  destruct (skipn pos t) as [|c1 [|c2 rest]]; simpl.
  - lia.
  - destruct (Ascii.eqb c1 LF) eqn:E1; simpl; [lia|].
    destruct (Ascii.eqb c1 CR); simpl; lia.
  - destruct (Ascii.eqb c1 LF) eqn:E1; simpl.
    + apply Ascii.eqb_eq in E1. subst c1. simpl. lia.
    + destruct (Ascii.eqb c1 CR); simpl; [|lia].
      destruct (Ascii.eqb c2 LF); simpl; lia.
Qed.

(** The line terminator a fix deletes is one terminator: nothing, a line
    feed, a carriage return, or a carriage return and a line feed, and it
    is the text found after the statement. *)
Lemma line_terminator_at_cases t pos :
  (line_terminator_at t pos = [] \/
   line_terminator_at t pos = [LF] \/
   line_terminator_at t pos = [CR] \/
   line_terminator_at t pos = [CR; LF]) /\
  firstn (List.length (line_terminator_at t pos)) (skipn pos t)
  = line_terminator_at t pos.
Proof.
  unfold line_terminator_at.
  destruct (skipn pos t) as [|c1 [|c2 rest]]; simpl; auto.
  - destruct (Ascii.eqb_spec c1 LF) as [->|H1]; simpl; auto.
    destruct (Ascii.eqb_spec c1 CR) as [->|H2]; simpl; auto.
  - destruct (Ascii.eqb_spec c1 CR) as [->|H1]; simpl.
    + destruct (Ascii.eqb_spec c2 LF) as [->|H2]; simpl; auto 6.
    + destruct (Ascii.eqb_spec c1 LF) as [->|H2]; simpl; auto.
Qed.

Lemma slice_from_zero k t : slice 0 k t = firstn k t.
Proof. unfold slice. now rewrite Nat.sub_0_r. Qed.

(** The consumer's pass over a deletion and a replacement. *)
Lemma apply_two_fixes t del ann body :
  fst del <= snd del ->
  fst ann <= snd ann ->
  (forall fixed,
     apply_fixes t [mkFix del []; mkFix ann body] = Some fixed ->
     fixed = spec_fixed_text t del ann body) /\
  (disjoint_ranges del ann = true ->
   apply_fixes t [mkFix del []; mkFix ann body] <> None).
Proof.
  intros Hdel Hann.
  unfold apply_fixes, sort_fixes, spec_fixed_text, disjoint_ranges.
  cbn [fold_right insert_fix]. unfold fix_leb. cbn [fix_range].
  destruct (fst del <? fst ann) eqn:E1; cbn [orb].
  - apply Nat.ltb_lt in E1.
    cbn [apply_sorted fix_range fix_text]. rewrite slice_from_zero.
    destruct (fst ann <? snd del) eqn:E2.
    + apply Nat.ltb_lt in E2. split; [discriminate|].
      intros H. apply orb_prop in H.
      destruct H as [H|H]; apply Nat.leb_le in H; lia.
    + apply Nat.ltb_ge in E2. split; [|discriminate].
      intros fixed [= <-].
      apply Nat.leb_le in E2. rewrite E2. reflexivity.
  - apply Nat.ltb_ge in E1.
    destruct ((fst del =? fst ann) && (snd del <=? snd ann)) eqn:E3.
    + apply andb_prop in E3. destruct E3 as [Ea Eb].
      apply Nat.eqb_eq in Ea. apply Nat.leb_le in Eb.
      cbn [apply_sorted fix_range fix_text]. rewrite slice_from_zero.
      destruct (fst ann <? snd del) eqn:E2.
      * apply Nat.ltb_lt in E2. split; [discriminate|].
        intros H. apply orb_prop in H.
        destruct H as [H|H]; apply Nat.leb_le in H; lia.
      * apply Nat.ltb_ge in E2. split; [|discriminate].
        intros fixed [= <-].
        apply Nat.leb_le in E2. rewrite E2. reflexivity.
    + assert (Hord : fst ann < fst del \/ snd ann < snd del).
      { apply andb_false_iff in E3. destruct E3 as [E3|E3].
        - apply Nat.eqb_neq in E3. lia.
        - apply Nat.leb_gt in E3. lia. }
      cbn [apply_sorted fix_range fix_text]. rewrite slice_from_zero.
      destruct (fst del <? snd ann) eqn:E2.
      * apply Nat.ltb_lt in E2. split; [discriminate|].
        intros H. apply orb_prop in H.
        destruct H as [H|H]; apply Nat.leb_le in H; lia.
      * apply Nat.ltb_ge in E2. split; [|discriminate].
        intros fixed [= <-].
        assert (E4 : (snd del <=? fst ann) = false).
        { apply Nat.leb_gt. lia. }
        rewrite E4. simpl. reflexivity.
Qed.

(** On a well-formed tree [getTopLevelStatement] finds the top-level
    statement that encloses a node other than the program. *)
Lemma getTopLevelStatement_encloses sc :
  wf_ast sc = true ->
  forall bound d n,
    d < bound ->
    get_node sc d = Some n ->
    d <> ast sc ->
    enclosing_top_level_statement sc d
      (getTopLevelStatement sc d (ast sc)).
Proof.
  intros Hwf. induction bound as [|bound IH]; intros d n Hlt Hn Hne; [lia|].
  rewrite (getTopLevelStatement_unfold sc Hwf d).
  rewrite (parent_of_get_node sc d n Hn).
  destruct (parent n) as [q|] eqn:Hq.
  - destruct (Nat.eqb_spec q (ast sc)) as [->|Hqne].
    + split; auto. now rewrite (parent_of_get_node sc d n Hn).
    + pose proof (wf_parent_precedes sc Hwf d n q Hn Hq) as Hqd.
      assert (Hqn : exists qn, get_node sc q = Some qn).
      { destruct (get_node sc q) as [qn|] eqn:E; [now exists qn|].
        unfold get_node in E. apply nth_error_None in E.
        pose proof (get_node_lt sc d n Hn). lia. }
      destruct Hqn as (qn & Hqn).
      assert (Hlt' : q < bound) by lia.
      destruct (IH q qn Hlt' Hqn Hqne) as ([Hs|Hs] & Hp).
      * split; auto. right. rewrite Hs. apply ancestor_parent.
        now rewrite (parent_of_get_node sc d n Hn).
      * split; auto. right. apply ancestor_step with q; auto.
        now rewrite (parent_of_get_node sc d n Hn).
  - exfalso. apply Hne. exact (wf_root sc Hwf d n Hn Hq).
Qed.

Lemma declaration_not_program sc d n name tp :
  wf_ast sc = true ->
  get_node sc d = Some n ->
  declares n = Some (name, tp) ->
  d <> ast sc.
Proof.
  intros Hwf Hn Hdec E. subst d.
  pose proof (wf_program sc Hwf) as Hp.
  rewrite (kind_of_get_node sc _ n Hn) in Hp. inversion Hp as [Hk].
  unfold declares in Hdec. rewrite Hk in Hdec. discriminate.
Qed.

(** The two edits of a fix. *)
Lemma fix_callback_edits sc d n name tp r fixes :
  get_node sc d = Some n ->
  declares n = Some (name, tp) ->
  fix_callback sc d r = FixEdits fixes ->
  exists a target,
    parent_of sc r = Some a /\
    kind_of sc a = Some (TSTypeAnnotation target) /\
    fixes = [ mkFix (deleted_span sc (getTopLevelStatement sc d (ast sc))) [];
              mkFix (range_of sc target) (declaration_body_text sc n) ].
Proof.
  intros Hn Hdec. unfold fix_callback.
  rewrite (getTypeBody_declaration sc d n name tp Hn Hdec).
  destruct (declaration_body_text sc n) as [|c body] eqn:Hbody;
    [discriminate|].
  destruct (parent_of sc r) as [a|]; [|discriminate].
  destruct (kind_of sc a) as [k|] eqn:Hk; [|discriminate].
  destruct k; try discriminate.
  intros [= <-]. exists a. eexists. split; [reflexivity|].
  split; [exact Hk|].
  unfold removeRange, replaceText, deleted_span.
  now rewrite skip_line_terminator_spec.
Qed.

(** C2.  For every report that carries fix edits: the edits are the
    deletion of the top-level statement that encloses the declaration,
    extended over the one line terminator that follows it (a line feed, a
    carriage return, or a carriage return and a line feed), and the
    replacement of the type named by the annotation that is the
    reference's parent (the reference itself) by the declaration's body
    text, sliced from the source by the range of the alias's right-hand
    type or of the interface's member block; and the text the consumer
    produces from them is the original text with the first span removed
    and the second replaced by the body text.  The consumer produces a
    text whenever the two spans are disjoint. *)
Theorem fix_text_round_trip sc rep fixes :
  wf_ast sc = true ->
  In rep (run sc) ->
  fix_ rep = FixEdits fixes ->
  exists n r a target stmt,
    get_node sc (node rep) = Some n /\
    occurrences sc (typeName rep) = [r] /\
    parent_of sc r = Some a /\
    kind_of sc a = Some (TSTypeAnnotation target) /\
    target = r /\
    enclosing_top_level_statement sc (node rep) stmt /\
    slice (snd (range_of sc stmt)) (snd (deleted_span sc stmt)) (text sc)
    = line_terminator_at (text sc) (snd (range_of sc stmt)) /\
    fixes = [ mkFix (deleted_span sc stmt) [];
              mkFix (range_of sc target) (declaration_body_text sc n) ] /\
    (forall fixed,
       apply_fixes (text sc) fixes = Some fixed ->
       fixed = spec_fixed_text (text sc) (deleted_span sc stmt)
                 (range_of sc target) (declaration_body_text sc n)) /\
    (disjoint_ranges (deleted_span sc stmt) (range_of sc target) = true ->
     apply_fixes (text sc) fixes <> None).
Proof.
  intros Hwf Hin Hfix.
  destruct (report_inversion sc rep Hin)
    as (n & r & Hn & Hdec & _ & _ & Hocc & _ & Hcb).
  rewrite Hcb in Hfix.
  destruct (fix_callback_edits sc _ n _ _ r fixes Hn Hdec Hfix)
    as (a & target & Hra & Hka & ->).
  pose proof (declaration_not_program sc _ n _ _ Hwf Hn Hdec) as Hne.
  pose proof (getTopLevelStatement_encloses sc Hwf _ _ n
                (Nat.lt_succ_diag_r _) Hn Hne) as Hstmt.
  set (stmt := getTopLevelStatement sc (node rep) (ast sc)) in *.
  assert (Hdel : fst (deleted_span sc stmt) <= snd (deleted_span sc stmt)).
  { unfold deleted_span. simpl.
    pose proof (wf_range_ordered sc Hwf stmt). lia. }
  pose proof (wf_range_ordered sc Hwf target) as Hann.
  destruct (apply_two_fixes (text sc) (deleted_span sc stmt)
              (range_of sc target) (declaration_body_text sc n) Hdel Hann)
    as (Hsame & Hsome).
  exists n, r, a, target, stmt.
  repeat split; auto.
  - exact (wf_annotation_child sc Hwf r a target Hra Hka).
  - destruct Hstmt as [H _]. exact H.
  - destruct Hstmt as [_ H]. exact H.
  - unfold deleted_span, slice. cbn [snd].
    replace (snd (range_of sc stmt)
             + List.length (line_terminator_at (text sc)
                              (snd (range_of sc stmt)))
             - snd (range_of sc stmt))
      with (List.length (line_terminator_at (text sc)
                           (snd (range_of sc stmt)))) by lia.
    apply line_terminator_at_cases.
Qed.

Lemma fix_text_round_trip_witness :
  exists n r a target stmt,
    get_node ex_basic 1 = Some n /\
    occurrences ex_basic "P" = [r] /\
    parent_of ex_basic r = Some a /\
    kind_of ex_basic a = Some (TSTypeAnnotation target) /\
    target = r /\
    enclosing_top_level_statement ex_basic 1 stmt /\
    slice (snd (range_of ex_basic stmt)) (snd (deleted_span ex_basic stmt))
      (text ex_basic)
    = line_terminator_at (text ex_basic) (snd (range_of ex_basic stmt)) /\
    [ mkFix (0, 24) [];
      mkFix (38, 39) (list_ascii_of_string "{ a: string }") ]
    = [ mkFix (deleted_span ex_basic stmt) [];
        mkFix (range_of ex_basic target) (declaration_body_text ex_basic n) ]
    /\
    (forall fixed,
       apply_fixes (text ex_basic)
         [ mkFix (0, 24) [];
           mkFix (38, 39) (list_ascii_of_string "{ a: string }") ]
       = Some fixed ->
       fixed = spec_fixed_text (text ex_basic) (deleted_span ex_basic stmt)
                 (range_of ex_basic target)
                 (declaration_body_text ex_basic n)) /\
    (disjoint_ranges (deleted_span ex_basic stmt)
       (range_of ex_basic target) = true ->
     apply_fixes (text ex_basic)
       [ mkFix (0, 24) [];
         mkFix (38, 39) (list_ascii_of_string "{ a: string }") ]
     <> None).
Proof.
  apply (fix_text_round_trip ex_basic
           (mkReport 1 "preferInlineType" "P"
              (FixEdits [ mkFix (0, 24) [];
                          mkFix (38, 39)
                            (list_ascii_of_string "{ a: string }") ]))
           [ mkFix (0, 24) [];
             mkFix (38, 39) (list_ascii_of_string "{ a: string }") ]).
  - reflexivity.
  - left. reflexivity.
  - reflexivity.
Defined.

(** The model reproduces the first invalid case of the rule's test suite:
    one report, for [UserProps], whose fix turns the input into the
    expected output. *)
Example test_suite_single_use_alias :
  exists rep fixes,
    run ex_test_alias = [rep] /\
    typeName rep = "UserProps" /\
    fix_ rep = FixEdits fixes /\
    apply_fixes (text ex_test_alias) fixes = Some ex_test_alias_output.
Proof. eexists. eexists. repeat split; reflexivity. Qed.

(** A carriage return and a line feed after the statement are deleted
    together; a lone carriage return or line feed is deleted alone. *)
Example line_terminators_skipped :
  skip_line_terminator (list_ascii_of_string "a;" ++ [CR; LF; "b"%char]) 2 = 4
  /\ skip_line_terminator (list_ascii_of_string "a;" ++ [CR; "b"%char]) 2 = 3
  /\ skip_line_terminator (list_ascii_of_string "a;" ++ [LF; LF]) 2 = 3
  /\ skip_line_terminator (list_ascii_of_string "a;" ++ ["b"%char]) 2 = 2
  /\ skip_line_terminator (list_ascii_of_string "a;") 2 = 2.
Proof. repeat split; reflexivity. Qed.

(* ================================================================== *)
(** * The two edits can overlap                                         *)
(* ================================================================== *)

(** C3 fails on the code.  In [ex_nested_decl] the alias is declared inside
    the function [outer], which also holds the single use.  The statement
    deleted is the top-level one, the whole of [outer] with the line feed
    after it (positions 0 to 73); the replaced annotation type (positions
    65 to 66) lies inside it.  The two ranges overlap and the consumer's
    pass fails on them. *)
Theorem nested_declaration_fix_overlaps :
  wf_ast ex_nested_decl = true /\
  exists rep body,
    run ex_nested_decl = [rep] /\
    node rep = 4 /\
    getTopLevelStatement ex_nested_decl 4 (ast ex_nested_decl) = 1 /\
    fix_ rep = FixEdits [ mkFix (0, 73) []; mkFix (65, 66) body ] /\
    disjoint_ranges (0, 73) (65, 66) = false /\
    apply_fixes (text ex_nested_decl)
      [ mkFix (0, 73) []; mkFix (65, 66) body ] = None.
Proof.
  split; [reflexivity|]. eexists. eexists. repeat split; reflexivity.
Qed.

(** When the replaced type lies outside the deleted statement and does not
    begin with a line terminator, the two ranges are disjoint: stepping
    over the line terminator does not reach it. *)
Lemma deleted_span_disjoint sc stmt target :
  disjoint_ranges (range_of sc stmt) (range_of sc target) = true ->
  char_at_is (text sc) (fst (range_of sc target)) LF = false ->
  char_at_is (text sc) (fst (range_of sc target)) CR = false ->
  disjoint_ranges (deleted_span sc stmt) (range_of sc target) = true.
Proof.
  unfold disjoint_ranges, deleted_span. cbn [fst snd].
  rewrite <- skip_line_terminator_spec.
  set (e := snd (range_of sc stmt)). set (a := fst (range_of sc target)).
  intros Hd Hlf Hcr. apply orb_prop in Hd. apply orb_true_iff.
  destruct Hd as [Hd|Hd]; [left | right; exact Hd].
  apply Nat.leb_le in Hd. apply Nat.leb_le.
  unfold skip_line_terminator.
  destruct (char_at_is (text sc) e LF) eqn:E1.
  - assert (a <> e) by (intros ->; congruence). lia.
  - destruct (char_at_is (text sc) e CR) eqn:E2; [|lia].
    assert (a <> e) by (intros ->; congruence).
    destruct (char_at_is (text sc) (e + 1) LF) eqn:E3; [|lia].
    assert (a <> e + 1) by (intros ->; congruence). lia.
Qed.

Example top_level_fix_ranges_disjoint :
  disjoint_ranges (deleted_span ex_basic 1) (range_of ex_basic 12) = true.
Proof.
  apply deleted_span_disjoint; reflexivity.
Qed.

(* ================================================================== *)
(** * The parameter check, characterised                                *)
(* ================================================================== *)

Lemma ancestor_body_None_indep sc an y y' :
  ancestor_body sc an y = None -> ancestor_body sc an y' = None.
Proof.
  unfold ancestor_body. destruct (kind an); auto; try discriminate.
  destruct (init_function_params sc init); auto; discriminate.
Qed.

(** Whether the inner loop finds a function does not depend on the node it
    looks for. *)
Lemma ancestor_loop_None_indep sc y y' : forall fuel anc,
  ancestor_loop fuel sc anc y = None ->
  ancestor_loop fuel sc anc y' = None.
Proof.
  induction fuel as [|fuel IH]; intros anc H; simpl in *; auto.
  destruct anc as [a|]; auto.
  destruct (get_node sc a) as [an|]; auto.
  destruct (ancestor_body sc an y) eqn:Hb; [discriminate|].
  rewrite (ancestor_body_None_indep sc an y y' Hb). now apply IH.
Qed.

Lemma isInFunctionParameter_node sc c :
  isInFunctionParameter sc c = true -> exists cn, get_node sc c = Some cn.
Proof.
  unfold isInFunctionParameter.
  destruct (List.length (nodes sc)); simpl; [discriminate|].
  destruct (get_node sc c) as [cn|]; [|discriminate].
  intros _. now exists cn.
Qed.

(** Above a node from which the inner loop finds no function, the check
    fails. *)
Lemma no_function_above sc y :
  wf_ast sc = true ->
  forall bound (g : NodeId),
    g < bound ->
    ancestor_loop (List.length (nodes sc)) sc (Some g) y = None ->
    isInFunctionParameter sc g = false.
Proof.
  intros Hwf. induction bound as [|bound IH]; intros g Hlt Hnone; [lia|].
  destruct (isInFunctionParameter sc g) eqn:Hin; auto.
  destruct (isInFunctionParameter_node sc g Hin) as (gn & Hgn).
  rewrite (ancestor_loop_unfold sc Hwf g gn y Hgn) in Hnone.
  destruct (ancestor_body sc gn y) eqn:Hb; [discriminate|].
  rewrite (isInFunctionParameter_unfold sc Hwf g gn Hgn) in Hin.
  assert (Hbody : current_body sc gn = None).
  { unfold current_body, annotation_body.
    destruct (kind gn); auto.
    destruct (parent gn) as [p|] eqn:Hp; auto.
    assert (Hp' : ancestor_loop (List.length (nodes sc)) sc
                    (parent_of sc p) p = None).
    { unfold parent_of. destruct (get_node sc p) as [pn|] eqn:Hpn.
      - rewrite (ancestor_loop_unfold sc Hwf p pn y Hpn) in Hnone.
        destruct (ancestor_body sc pn y); [discriminate|].
        now apply ancestor_loop_None_indep with y.
      - apply ancestor_loop_None. }
    rewrite Hp'. now destruct (kind_of sc p) as [[]|]. }
  rewrite Hbody in Hin.
  destruct (parent gn) as [q|] eqn:Hq; [|discriminate].
  pose proof (wf_parent_precedes sc Hwf g gn q Hgn Hq) as Hqg.
  assert (Hq' : q < bound) by lia.
  rewrite (IH q Hq' Hnone) in Hin. discriminate.
Qed.

(** X13.  On a well-formed tree, for a node that is not itself a binding
    annotation (a type reference is not), the check succeeds exactly when
    the innermost binding annotation above the node is attached to a
    listed parameter. *)
Lemma isInFunctionParameter_characterised sc :
  wf_ast sc = true ->
  forall r : NodeId,
    binding_annotation sc r = false ->
    (isInFunctionParameter sc r = true <->
     exists a, innermost_binding_annotation sc r a /\
               annotates_listed_parameter sc a).
Proof.
  intros Hwf r Hr. split.
  - revert Hr. assert (Hb : r < S r) by lia. revert Hb.
    generalize (S r) as bound. intros bound. revert r.
    induction bound as [|bound IH]; intros r Hlt Hr Hin; [lia|].
    destruct (isInFunctionParameter_node sc r Hin) as (rn & Hrn).
    rewrite (isInFunctionParameter_unfold sc Hwf r rn Hrn) in Hin.
    rewrite (not_binding_annotation_body sc r rn Hrn Hr) in Hin.
    destruct (parent rn) as [q|] eqn:Hq; [|discriminate].
    pose proof (wf_parent_precedes sc Hwf r rn q Hrn Hq) as Hqr.
    assert (Hrq : parent_of sc r = Some q).
    { now rewrite (parent_of_get_node sc r rn Hrn). }
    destruct (binding_annotation sc q) eqn:Hbq.
    + destruct (isInFunctionParameter_node sc q Hin) as (qn & Hqn).
      rewrite (isInFunctionParameter_unfold sc Hwf q qn Hqn) in Hin.
      destruct (binding_annotation_body sc q qn Hqn Hbq) as (p & Hp & Hbody).
      rewrite Hbody, Hp in Hin.
      assert (Hqp : parent_of sc q = Some p).
      { now rewrite (parent_of_get_node sc q qn Hqn). }
      destruct (ancestor_loop (List.length (nodes sc)) sc (parent_of sc p) p)
        as [b|] eqn:Hloop.
      * subst b. exists q. split; [now apply iba_parent|].
        destruct (ancestor_loop_true sc p _ _ Hloop)
          as (f & fk & ps & Hf & Hps & Hinp).
        exists p, f, fk, ps. repeat split; auto.
        exact (wf_param_child sc Hwf f fk ps p Hf Hps Hinp).
      * exfalso.
        destruct (isInFunctionParameter_node sc p Hin) as (pn & Hpn).
        rewrite (isInFunctionParameter_unfold sc Hwf p pn Hpn) in Hin.
        rewrite (parent_of_get_node sc p pn Hpn) in Hloop.
        assert (Hpb : current_body sc pn = None).
        { apply not_binding_annotation_body with p; auto.
          unfold binding_annotation in Hbq |- *. rewrite Hqp in Hbq.
          destruct (kind_of sc q) as [[]|]; try discriminate.
          destruct (kind_of sc p) as [[]|]; try discriminate; reflexivity. }
        rewrite Hpb in Hin.
        destruct (parent pn) as [g|] eqn:Hg; [|discriminate].
        pose proof (no_function_above sc p Hwf (S g) g
                      (Nat.lt_succ_diag_r g) Hloop) as Hfalse.
        congruence.
    + assert (Hq' : q < bound) by lia.
      destruct (IH q Hq' Hbq Hin) as (a & Hpath & Hlisted).
      exists a. split; auto. now apply iba_step with q.
  - intros (a & Hpath & Hlisted).
    now apply isInFunctionParameter_complete with a.
Qed.

(* ================================================================== *)
(** * The reports of a file, characterised                              *)
(* ================================================================== *)

Lemma recordable_as_true name n :
  recordable_as name n = true <-> declares n = Some (name, false).
Proof.
  unfold recordable_as. destruct (declares n) as [[id [|]]|].
  - split; discriminate.
  - rewrite String.eqb_eq. split; congruence.
  - split; discriminate.
Qed.

Lemma visit_defs_recordable st node n name :
  JSMap.get (typeDefinitions (visit st node n)) name
  = if recordable_as name n then Some node
    else JSMap.get (typeDefinitions st) name.
Proof.
  rewrite visit_defs. unfold recordable_as.
  destruct (declares n) as [[id [|]]|]; reflexivity.
Qed.

(** The declaration recorded under a name is the last non-generic
    declaration of that name. *)
Lemma traverse_from_defs_last_inv ns : forall start st name d,
  JSMap.get (typeDefinitions (traverse_from start ns st)) name = Some d ->
  (JSMap.get (typeDefinitions st) name = Some d /\
   forallb (fun n => negb (recordable_as name n)) ns = true) \/
  (exists n, start <= d /\ nth_error ns (d - start) = Some n /\
             declares n = Some (name, false) /\
             forallb (fun n => negb (recordable_as name n))
               (skipn (S (d - start)) ns) = true).
Proof.
  induction ns as [|n ns IH]; intros start st name d H; simpl in H.
  - left. auto.
  - apply IH in H.
    destruct H as [(H & Hnone) | (m & Hle & Hnth & Hdec & Hnone)].
    + rewrite visit_defs_recordable in H.
      destruct (recordable_as name n) eqn:Hrec.
      * assert (Hds : d = start) by congruence. subst d. right. exists n.
        rewrite Nat.sub_diag. simpl. apply recordable_as_true in Hrec. auto.
      * left. split; auto. simpl. now rewrite Hrec.
    + right. exists m. split; [lia|].
      replace (d - start) with (S (d - S start)) by lia.
      simpl. auto.
Qed.

Lemma recorded_declaration_is_last sc name d :
  JSMap.get (typeDefinitions (traverse sc)) name = Some d ->
  last_declaration_of sc d name = true.
Proof.
  intros H. apply traverse_from_defs_last_inv in H.
  destruct H as [(H & _) | (n & _ & _ & _ & Hnone)]; [discriminate|].
  rewrite Nat.sub_0_r in Hnone. exact Hnone.
Qed.

(** The candidate reports of a file are exactly these: one for each name
    whose last non-generic declaration is not the immediate subject of an
    export, whose only type-reference occurrence passes the parameter
    check; the candidate is for that last declaration, carries the message
    [preferInlineType] and the fix computed for the declaration and the
    occurrence. *)
Theorem report_iff sc rep :
  In rep (run sc) <->
  exists n r,
    get_node sc (node rep) = Some n /\
    declares n = Some (typeName rep, false) /\
    last_declaration_of sc (node rep) (typeName rep) = true /\
    ~ export_subject sc (node rep) /\
    occurrences sc (typeName rep) = [r] /\
    isInFunctionParameter sc r = true /\
    messageId rep = "preferInlineType" /\
    fix_ rep = fix_callback sc (node rep) r.
Proof.
  split.
  - intros Hin.
    assert (Hmsg : messageId rep = "preferInlineType").
    { unfold run, Program_exit in Hin. apply exit_loop_In in Hin.
      destruct Hin as ([name count] & _ & He).
      apply exit_iteration_Some in He.
      now destruct He as (d & r & _ & _ & _ & _ & _ & ->). }
    destruct (report_inversion sc rep Hin)
      as (n & r & Hn & Hdec & Hd & Hexp & Hocc & Hcheck & Hfix).
    exists n, r. repeat split; auto.
    + now apply recorded_declaration_is_last.
    + intros Hs. apply export_subject_isExported in Hs. congruence.
  - intros (n & r & Hn & Hdec & Hlast & Hexp & Hocc & Hcheck & Hmsg & Hfix).
    assert (Hd : JSMap.get (typeDefinitions (traverse sc)) (typeName rep)
                 = Some (node rep)).
    { apply recorded_declaration_last with n; auto.
      now apply last_declaration_of_spec. }
    assert (Hne : isExported sc (node rep) = false).
    { destruct (isExported sc (node rep)) eqn:E; auto.
      exfalso. apply Hexp. now apply isExported_export_subject. }
    pose proof (report_intro sc (typeName rep) (node rep) r Hd Hne Hocc Hcheck)
      as Hfilter.
    assert (Hrep : rep = mkReport (node rep) "preferInlineType" (typeName rep)
                           (fix_callback sc (node rep) r)).
    { destruct rep as [nd msg nm fx]. simpl in *. now subst. }
    assert (Hin : In rep (filter (fun x => String.eqb (typeName x) (typeName rep))
                            (run sc))).
    { rewrite Hfilter. left. now rewrite <- Hrep. }
    apply filter_In in Hin. tauto.
Qed.

(** X1.  When the loop of [Program:exit] reaches its end (no call of
    [context.report] failed), the reports made are exactly these: one for
    each name whose last non-generic declaration is not the immediate
    subject of an export and whose only type-reference occurrence passes
    the parameter check; the report is for that last declaration, carries
    the message [preferInlineType] and the fix computed for the
    declaration and the occurrence. *)
Theorem completed_reports_iff sc rep :
  completed (lint sc) = true ->
  (In rep (made (lint sc)) <->
   exists n r,
     get_node sc (node rep) = Some n /\
     declares n = Some (typeName rep, false) /\
     last_declaration_of sc (node rep) (typeName rep) = true /\
     ~ export_subject sc (node rep) /\
     occurrences sc (typeName rep) = [r] /\
     isInFunctionParameter sc r = true /\
     messageId rep = "preferInlineType" /\
     fix_ rep = fix_callback sc (node rep) r).
Proof.
  intros Hc. rewrite (completed_made_run sc Hc). apply report_iff.
Qed.

Lemma completed_reports_iff_witness :
  completed (lint ex_basic) = true /\
  (In (mkReport 1 "preferInlineType" "P" (fix_callback ex_basic 1 12))
      (made (lint ex_basic)) <->
   exists n r,
     get_node ex_basic 1 = Some n /\
     declares n = Some ("P", false) /\
     last_declaration_of ex_basic 1 "P" = true /\
     ~ export_subject ex_basic 1 /\
     occurrences ex_basic "P" = [r] /\
     isInFunctionParameter ex_basic r = true /\
     "preferInlineType" = "preferInlineType" /\
     fix_callback ex_basic 1 12 = fix_callback ex_basic 1 r).
Proof.
  split; [reflexivity|].
  apply (completed_reports_iff ex_basic
           (mkReport 1 "preferInlineType" "P" (fix_callback ex_basic 1 12))).
  reflexivity.
Defined.

(** A fix with overlapping edits ends the loop: in [ex_aborted] the
    candidate for [P] is refused, and the top-level alias [Q], a candidate
    whose own fix is fine, is never reported. *)
Example aborted_loop_skips_later_candidate :
  map typeName (run ex_aborted) = ["P"; "Q"] /\
  lint ex_aborted = mkOutcome [] false.
Proof. split; reflexivity. Qed.

Lemma exit_loop_names st sc : forall es name,
  In name (map typeName (exit_loop st sc es)) -> In name (map fst es).
Proof.
  induction es as [|[k c] es IH]; intros name H; [exact H|].
  cbn [exit_loop] in H. cbn [map fst In].
  destruct (exit_iteration st sc (k, c)) as [rep|] eqn:He.
  - cbn [map In] in H. destruct H as [H|H].
    + left. rewrite <- H. symmetry.
      exact (exit_iteration_name _ _ _ _ _ He).
    + right. now apply IH.
  - right. now apply IH.
Qed.

Lemma exit_loop_NoDup st sc : forall es,
  NoDup (map fst es) -> NoDup (map typeName (exit_loop st sc es)).
Proof.
  induction es as [|[k c] es IH]; intros Hnd; [constructor|].
  inversion Hnd as [|? ? Hnotin Hnd']; subst.
  cbn [exit_loop].
  destruct (exit_iteration st sc (k, c)) as [rep|] eqn:He; auto.
  cbn [map]. constructor; auto.
  rewrite (exit_iteration_name _ _ _ _ _ He).
  intros H. apply Hnotin. now apply exit_loop_names in H.
Qed.

Lemma NoDup_map_determined (A B C : Type) (f : A -> B) (g : A -> C) :
  forall l,
    (forall x y, In x l -> In y l -> g x = g y -> f x = f y) ->
    NoDup (map f l) -> NoDup (map g l).
Proof.
  induction l as [|x l IH]; intros Hdet Hnd; simpl; [constructor|].
  inversion Hnd as [|? ? Hnotin Hnd']; subst.
  constructor.
  - intros Hin. apply in_map_iff in Hin. destruct Hin as (y & Hy & Hyl).
    apply Hnotin. apply in_map_iff. exists y. split; auto.
    symmetry. apply Hdet; simpl; auto.
  - apply IH; auto. intros a b Ha Hb. apply Hdet; simpl; auto.
Qed.

(** X2.  No two reports of a file have the same name and no two are for
    the same declaration node. *)
Theorem reports_distinct sc :
  NoDup (map typeName (run sc)) /\ NoDup (map node (run sc)).
Proof.
  assert (Hnames : NoDup (map typeName (run sc))).
  { unfold run, Program_exit, JSMap.entries.
    apply exit_loop_NoDup. apply traverse_usage_keys. }
  split; auto.
  apply NoDup_map_determined with (f := typeName); auto.
  intros x y Hx Hy Hnode.
  destruct (report_inversion sc x Hx) as (n & r & Hn & Hdec & _).
  destruct (report_inversion sc y Hy) as (n' & r' & Hn' & Hdec' & _).
  rewrite Hnode in Hn. congruence.
Qed.

(** X3.  A report is only ever made under a name that the file itself
    declares without type parameters and that has exactly one
    type-reference occurrence: a name the file does not declare (a built-in
    or imported type), a name declared only with type parameters, and a
    declared name that is never referenced get no report. *)
Theorem undeclared_or_unused_name_not_reported sc name :
  (forall i n, get_node sc i = Some n -> recordable_as name n = false) \/
  occurrences sc name = [] ->
  forall rep, In rep (run sc) -> typeName rep <> name.
Proof.
  intros H rep Hin E.
  destruct (report_inversion sc rep Hin)
    as (n & r & Hn & Hdec & _ & _ & Hocc & _).
  rewrite E in *. destruct H as [H|H].
  - specialize (H _ _ Hn). unfold recordable_as in H.
    rewrite Hdec, String.eqb_refl in H. discriminate.
  - rewrite H in Hocc. discriminate.
Qed.

Lemma undeclared_or_unused_name_not_reported_witness :
  forallb (fun m => negb (recordable_as "Array" m)) (nodes ex_wrapped) = true
  /\ forall rep, In rep (run ex_wrapped) -> typeName rep <> "Array".
Proof.
  split; [reflexivity|].
  apply (undeclared_or_unused_name_not_reported ex_wrapped "Array").
  left. intros i n Hi.
  assert (Hin : In n (nodes ex_wrapped)) by (now apply nth_error_In with i).
  assert (Hall : forallb (fun m => negb (recordable_as "Array" m))
                   (nodes ex_wrapped) = true) by reflexivity.
  rewrite forallb_forall in Hall. specialize (Hall n Hin).
  now destruct (recordable_as "Array" n).
Defined.

(** X4.  When the usage count of a name is 1 at [Program:exit], the
    reference list of the name holds exactly one node: the guard on the
    list's length never skips a name that passed the guard on the count. *)
Theorem count_one_has_one_reference sc name :
  JSMap.get (typeUsageCount (traverse sc)) name = Some 1 ->
  exists r,
    JSMap.get (typeReferences (traverse sc)) name = Some [r] /\
    occurrences sc name = [r].
Proof.
  intros H.
  pose proof (traverse_counts sc name) as Hc.
  pose proof (traverse_refs sc name) as Hl.
  unfold count_or_zero in Hc. rewrite H in Hc.
  destruct (occurrences sc name) as [|r [|r' l]] eqn:Hocc;
    simpl in Hc; try lia.
  exists r. split; auto. unfold refs_or_nil in Hl.
  destruct (JSMap.get (typeReferences (traverse sc)) name) as [l|];
    [now subst | discriminate].
Qed.

Lemma count_one_has_one_reference_witness :
  exists r,
    JSMap.get (typeReferences (traverse ex_basic)) "P" = Some [r] /\
    occurrences ex_basic "P" = [r].
Proof.
  apply (count_one_has_one_reference ex_basic "P"). reflexivity.
Defined.

(* ================================================================== *)
(** * The maps during the traversal                                     *)
(* ================================================================== *)

Lemma is_reference_to_kind name n :
  is_reference_to name n = true <->
  kind n = TSTypeReference (IdentifierName name).
Proof.
  unfold is_reference_to.
  destruct (kind n) as [| | | [nm| |] | | | | | | | | | | | | ];
    try (split; discriminate).
  rewrite String.eqb_eq. split; congruence.
Qed.

Lemma occurrences_from_sorted name : forall ns start,
  Forall (le start) (occurrences_from start ns name) /\
  StronglySorted lt (occurrences_from start ns name).
Proof.
  induction ns as [|n ns IH]; intros start; simpl.
  - split; constructor.
  - destruct (IH (S start)) as (Hle & Hsorted).
    assert (Hle' : Forall (le start) (occurrences_from (S start) ns name)).
    { eapply Forall_impl; [|exact Hle]. intros a Ha. simpl in Ha. lia. }
    destruct (is_reference_to name n); auto.
    split.
    + constructor; auto.
    + constructor; auto.
Qed.

(** X5.  At every point of the traversal the reference list of a name
    holds exactly the type-reference nodes of that name entered so far,
    each once, in the order entered. *)
Theorem reference_list_contents sc k name :
  StronglySorted lt
    (refs_or_nil (typeReferences (traverse_upto sc k)) name) /\
  forall r,
    In r (refs_or_nil (typeReferences (traverse_upto sc k)) name) <->
    r < k /\ kind_of sc r = Some (TSTypeReference (IdentifierName name)).
Proof.
  unfold traverse_upto. rewrite traverse_from_refs. simpl.
  split; [apply occurrences_from_sorted|].
  intros r. split.
  - intros H. apply occurrences_from_In in H.
    destruct H as (n & _ & Hnth & Href). rewrite Nat.sub_0_r in Hnth.
    rewrite nth_error_firstn in Hnth.
    destruct (Nat.ltb_spec r k) as [Hlt|Hge]; [|discriminate].
    split; auto. rewrite (kind_of_get_node sc r n Hnth).
    f_equal. now apply is_reference_to_kind.
  - intros (Hlt & Hk).
    destruct (kind_of_Some_node sc r _ Hk) as (n & Hn & Hkn).
    apply (occurrences_from_intro name (firstn k (nodes sc)) 0 r n).
    + rewrite nth_error_firstn. apply Nat.ltb_lt in Hlt. now rewrite Hlt.
    + now apply is_reference_to_kind.
Qed.

Lemma has_true_In (V : Type) (m : JSMap.t V) k :
  JSMap.has m k = true <-> In k (JSMap.keys m).
Proof.
  unfold JSMap.has. destruct (JSMap.get m k) as [v|] eqn:Hg.
  - split; auto. intros _. apply get_In in Hg.
    change k with (fst (k, v)). now apply in_map.
  - split; [discriminate|]. intros H. now apply get_None_notin in Hg.
Qed.

Lemma keys_set_In (V : Type) (m : JSMap.t V) k v name :
  In name (JSMap.keys (JSMap.set m k v)) <->
  In name (JSMap.keys m) \/ name = k.
Proof.
  rewrite keys_set. destruct (JSMap.has m k) eqn:Hhas.
  - split; auto. intros [H| ->]; auto. now apply has_true_In.
  - rewrite in_app_iff. simpl. split.
    + intros [H|[H|[]]]; auto.
    + intros [H|H]; auto.
Qed.

Lemma visit_usage_keys_In st node n name :
  In name (JSMap.keys (typeUsageCount (visit st node n))) <->
  In name (JSMap.keys (typeUsageCount st)) \/
  recordable_as name n = true \/ is_reference_to name n = true.
Proof.
  unfold visit, recordable_as, is_reference_to, declares.
  destruct (kind n) as [| id tp ta | id tp bd | tn | | | | | | | | | | | | ];
    try (split; [auto | intros [H|[H|H]]; auto; discriminate]).
  - unfold visit_TSTypeAliasDeclaration, record_declaration.
    destruct tp; simpl.
    + split; [auto | intros [H|[H|H]]; auto; discriminate].
    + destruct (JSMap.has (typeUsageCount st) id) eqn:Hhas; simpl.
      * split; auto. intros [H|[H|H]]; auto; [|discriminate].
        apply String.eqb_eq in H. subst. now apply has_true_In.
      * rewrite keys_set_In, String.eqb_eq.
        split; intros [H|H]; auto.
        destruct H as [H|H]; auto. discriminate.
  - unfold visit_TSInterfaceDeclaration, record_declaration.
    destruct tp; simpl.
    + split; [auto | intros [H|[H|H]]; auto; discriminate].
    + destruct (JSMap.has (typeUsageCount st) id) eqn:Hhas; simpl.
      * split; auto. intros [H|[H|H]]; auto; [|discriminate].
        apply String.eqb_eq in H. subst. now apply has_true_In.
      * rewrite keys_set_In, String.eqb_eq.
        split; intros [H|H]; auto.
        destruct H as [H|H]; auto. discriminate.
  - destruct tn as [nm| |]; simpl;
      try (split; [auto | intros [H|[H|H]]; auto; discriminate]).
    rewrite keys_set_In, String.eqb_eq.
    split; intros [H|H]; auto.
    destruct H as [H|H]; auto. discriminate.
Qed.

Lemma traverse_from_usage_keys_In name : forall ns start st,
  In name (JSMap.keys (typeUsageCount (traverse_from start ns st))) <->
  In name (JSMap.keys (typeUsageCount st)) \/
  exists n, In n ns /\
            (recordable_as name n = true \/ is_reference_to name n = true).
Proof.
  induction ns as [|n ns IH]; intros start st; simpl.
  - split; auto. intros [H|(n & [] & _)]. exact H.
  - rewrite IH, visit_usage_keys_In. split.
    + intros [[H|H]|(m & Hm & H)]; auto.
      * right. exists n. auto.
      * right. exists m. auto.
    + intros [H|(m & [->|Hm] & H)]; auto.
      right. exists m. auto.
Qed.

(** X6.  When [Program:exit] runs, the usage map has an entry for exactly
    the names that some node of the file declares without type parameters
    or references; in particular every recorded declaration has a usage
    entry, so the loop over the usage entries meets it. *)
Theorem usage_entries_are_mentioned_names sc :
  (forall name,
     In name (JSMap.keys (typeUsageCount (traverse sc))) <->
     exists i n, get_node sc i = Some n /\
                 (recordable_as name n = true \/
                  is_reference_to name n = true)) /\
  (forall name d,
     JSMap.get (typeDefinitions (traverse sc)) name = Some d ->
     JSMap.has (typeUsageCount (traverse sc)) name = true).
Proof.
  assert (Hkeys : forall name,
     In name (JSMap.keys (typeUsageCount (traverse sc))) <->
     exists i n, get_node sc i = Some n /\
                 (recordable_as name n = true \/
                  is_reference_to name n = true)).
  { intros name. unfold traverse. rewrite traverse_from_usage_keys_In.
    simpl. split.
    - intros [[]|(n & Hin & H)]. apply In_nth_error in Hin.
      destruct Hin as (i & Hi). exists i, n. auto.
    - intros (i & n & Hi & H). right. exists n. split; auto.
      now apply nth_error_In with i. }
  split; auto.
  intros name d Hd. apply has_true_In. apply Hkeys.
  destruct (recorded_declaration_inv sc name d Hd) as (n & Hn & Hdec).
  exists d, n. split; auto. left. now apply recordable_as_true.
Qed.

(* ================================================================== *)
(** * [getTopLevelStatement]                                            *)
(* ================================================================== *)

Lemma ancestor_lt sc :
  wf_ast sc = true -> forall x a, ancestor sc x a -> a < x.
Proof.
  intros Hwf x a H. induction H as [n p Hp | n p a Hp _ IH].
  - destruct (parent_of_Some_node sc n p Hp) as (nn & Hnn & Hpn).
    exact (wf_parent_precedes sc Hwf n nn p Hnn Hpn).
  - destruct (parent_of_Some_node sc n p Hp) as (nn & Hnn & Hpn).
    pose proof (wf_parent_precedes sc Hwf n nn p Hnn Hpn). lia.
Qed.

Lemma enclosing_statement_is_result sc :
  wf_ast sc = true ->
  forall bound (d : NodeId) s,
    d < bound ->
    enclosing_top_level_statement sc d s ->
    s = getTopLevelStatement sc d (ast sc).
Proof.
  intros Hwf. induction bound as [|bound IH]; intros d s Hlt (Hs & Hp); [lia|].
  rewrite (getTopLevelStatement_unfold sc Hwf d).
  assert (Hast : forall x, (x = ast sc \/ ancestor sc (ast sc) x) ->
                           parent_of sc x = Some (ast sc) -> False).
  { intros x Hx Hpx.
    destruct (parent_of_Some_node sc x _ Hpx) as (xn & Hxn & Hpxn).
    pose proof (wf_parent_precedes sc Hwf x xn _ Hxn Hpxn) as Hlt'.
    destruct Hx as [->|Hx]; [lia|].
    pose proof (ancestor_lt sc Hwf _ _ Hx). lia. }
  destruct Hs as [->|Hs].
  - rewrite Hp. now rewrite Nat.eqb_refl.
  - assert (Hcases : exists p, parent_of sc d = Some p /\
                               (s = p \/ ancestor sc p s)).
    { inversion Hs; subst; eauto. }
    destruct Hcases as (p & Hdp & Hps). rewrite Hdp.
    destruct (Nat.eqb_spec p (ast sc)) as [->|Hne].
    + exfalso. apply (Hast s); auto.
    + destruct (parent_of_Some_node sc d p Hdp) as (dn & Hdn & Hpd).
      pose proof (wf_parent_precedes sc Hwf d dn p Hdn Hpd).
      apply IH; [lia|]. split; auto.
Qed.

(** X7.  On a well-formed tree, for every node other than the program,
    [getTopLevelStatement] returns the one node that is the given node or
    an ancestor of it and is a child of the program. *)
Theorem top_level_statement_exact sc d n :
  wf_ast sc = true ->
  get_node sc d = Some n ->
  d <> ast sc ->
  forall s,
    enclosing_top_level_statement sc d s <->
    s = getTopLevelStatement sc d (ast sc).
Proof.
  intros Hwf Hn Hne s. split.
  - intros H. exact (enclosing_statement_is_result sc Hwf (S d) d s
                       (Nat.lt_succ_diag_r d) H).
  - intros ->. exact (getTopLevelStatement_encloses sc Hwf (S d) d n
                        (Nat.lt_succ_diag_r d) Hn Hne).
Qed.

Lemma top_level_statement_exact_witness :
  wf_ast ex_nested_decl = true /\
  forall s,
    enclosing_top_level_statement ex_nested_decl 4 s <->
    s = getTopLevelStatement ex_nested_decl 4 (ast ex_nested_decl).
Proof.
  split; [reflexivity|].
  apply (top_level_statement_exact ex_nested_decl 4
           (mkNode (TSTypeAliasDeclaration "P" false 6) (Some 3) (21, 44))).
  - reflexivity.
  - reflexivity.
  - discriminate.
Defined.




(* ================================================================== *)
(** * The fix: what it deletes and what it writes                       *)
(* ================================================================== *)


Lemma fix_callback_declaration sc d r fixes :
  fix_callback sc d r = FixEdits fixes ->
  exists n name tp, get_node sc d = Some n /\ declares n = Some (name, tp).
Proof.
  unfold fix_callback, getTypeBody, declares, kind_of.
  destruct (get_node sc d) as [n|]; simpl; [|discriminate].
  intros H. exists n.
  destruct (kind n); try discriminate; eauto.
Qed.

(** X10.  Whenever the fix callback returns edits, they are two: a pure
    deletion, then a replacement whose text is the whole body text of the
    declaration and is not empty; and the reference's immediate parent is a
    type-annotation node. *)
Theorem fix_edits_shape sc d r fixes :
  fix_callback sc d r = FixEdits fixes ->
  exists del rpl,
    fixes = [del; rpl] /\
    fix_text del = [] /\
    fix_text rpl <> [] /\
    getTypeBody sc d = Some (fix_text rpl) /\
    directly_annotated sc r.
Proof.
  unfold fix_callback.
  destruct (getTypeBody sc d) as [[|c body]|]; try discriminate.
  destruct (parent_of sc r) as [a|] eqn:Ha; [|discriminate].
  destruct (kind_of sc a) as [k|] eqn:Hk; [|discriminate].
  destruct k; try discriminate.
  intros [= <-]. eexists. eexists. split; [reflexivity|].
  repeat split; try reflexivity.
  - discriminate.
  - exists a. eexists. rewrite Ha, Hk. auto.
Qed.

Lemma fix_edits_shape_witness :
  exists del rpl,
    [ mkFix (0, 24) [];
      mkFix (38, 39) (list_ascii_of_string "{ a: string }") ] = [del; rpl] /\
    fix_text del = [] /\
    fix_text rpl <> [] /\
    getTypeBody ex_basic 1 = Some (fix_text rpl) /\
    directly_annotated ex_basic 12.
Proof.
  apply (fix_edits_shape ex_basic 1 12). reflexivity.
Defined.

Lemma ranges_nested_at sc i n p :
  ranges_nested sc = true ->
  get_node sc i = Some n ->
  parent n = Some p ->
  fst (range_of sc p) <= fst (range_of sc i) /\
  snd (range_of sc i) <= snd (range_of sc p).
Proof.
  unfold ranges_nested. rewrite forallb_forall. intros H Hn Hp.
  assert (Hin : In n (nodes sc)) by (now apply nth_error_In with i).
  specialize (H n Hin). rewrite Hp in H.
  apply andb_prop in H. destruct H as [H1 H2].
  apply Nat.leb_le in H1, H2. unfold range_of at 2 3. rewrite Hn. auto.
Qed.

Lemma statement_covers_node sc :
  wf_ast sc = true ->
  ranges_nested sc = true ->
  forall bound (d : NodeId),
    d < bound ->
    fst (range_of sc (getTopLevelStatement sc d (ast sc)))
    <= fst (range_of sc d) /\
    snd (range_of sc d)
    <= snd (range_of sc (getTopLevelStatement sc d (ast sc))).
Proof.
  intros Hwf Hnest. induction bound as [|bound IH]; intros d Hlt; [lia|].
  rewrite (getTopLevelStatement_unfold sc Hwf d).
  destruct (parent_of sc d) as [q|] eqn:Hp; [|lia].
  destruct (q =? ast sc); [lia|].
  destruct (parent_of_Some_node sc d q Hp) as (dn & Hdn & Hpd).
  pose proof (wf_parent_precedes sc Hwf d dn q Hdn Hpd) as Hqd.
  pose proof (ranges_nested_at sc d dn q Hnest Hdn Hpd) as Hin.
  assert (Hq : q < bound) by lia.
  specialize (IH q Hq). lia.
Qed.

(** X11.  On a well-formed tree whose ranges follow the tree, the deletion
    of a fix covers the whole range of the declaration. *)
Theorem fix_deletes_whole_declaration sc d r fixes :
  wf_ast sc = true ->
  ranges_nested sc = true ->
  fix_callback sc d r = FixEdits fixes ->
  exists del rpl,
    fixes = [del; rpl] /\
    fst (fix_range del) <= fst (range_of sc d) /\
    snd (range_of sc d) <= snd (fix_range del).
Proof.
  intros Hwf Hnest Hfix.
  destruct (fix_callback_declaration sc d r fixes Hfix)
    as (n & name & tp & Hn & Hdec).
  destruct (fix_callback_edits sc d n name tp r fixes Hn Hdec Hfix)
    as (a & target & _ & _ & ->).
  eexists. eexists. split; [reflexivity|].
  unfold deleted_span. cbn [fix_range fst snd].
  pose proof (statement_covers_node sc Hwf Hnest (S d) d
                (Nat.lt_succ_diag_r d)). lia.
Qed.

Lemma fix_deletes_whole_declaration_witness :
  exists del rpl,
    [ mkFix (0, 73) [];
      mkFix (65, 66) (list_ascii_of_string "{ a: string }") ] = [del; rpl] /\
    fst (fix_range del) <= fst (range_of ex_nested_decl 4) /\
    snd (range_of ex_nested_decl 4) <= snd (fix_range del).
Proof.
  apply (fix_deletes_whole_declaration ex_nested_decl 4 15).
  - reflexivity.
  - reflexivity.
  - reflexivity.
Defined.

(** X12.  On a well-formed tree, when the replaced type lies outside the
    top-level statement that is deleted and does not begin with a line
    terminator, the two edits of a fix are disjoint, and a single pass over
    the text applies them: the result is the text with the statement and
    its line terminator removed and the type replaced by the body text. *)
Theorem fix_applies_when_reference_outside sc d r del rpl :
  wf_ast sc = true ->
  fix_callback sc d r = FixEdits [del; rpl] ->
  disjoint_ranges (range_of sc (getTopLevelStatement sc d (ast sc)))
    (fix_range rpl) = true ->
  char_at_is (text sc) (fst (fix_range rpl)) LF = false ->
  char_at_is (text sc) (fst (fix_range rpl)) CR = false ->
  disjoint_ranges (fix_range del) (fix_range rpl) = true /\
  apply_fixes (text sc) [del; rpl]
  = Some (spec_fixed_text (text sc) (fix_range del) (fix_range rpl)
            (fix_text rpl)).
Proof.
  intros Hwf Hfix Hout Hlf Hcr.
  destruct (fix_callback_declaration sc d r _ Hfix)
    as (n & name & tp & Hn & Hdec).
  destruct (fix_callback_edits sc d n name tp r _ Hn Hdec Hfix)
    as (a & target & _ & _ & Heq).
  inversion Heq; subst del rpl. cbn [fix_range fix_text] in *.
  set (stmt := getTopLevelStatement sc d (ast sc)) in *.
  pose proof (deleted_span_disjoint sc stmt target Hout Hlf Hcr) as Hdis.
  split; auto.
  assert (Hdel : fst (deleted_span sc stmt) <= snd (deleted_span sc stmt)).
  { unfold deleted_span. simpl.
    pose proof (wf_range_ordered sc Hwf stmt). lia. }
  pose proof (wf_range_ordered sc Hwf target) as Hann.
  destruct (apply_two_fixes (text sc) (deleted_span sc stmt)
              (range_of sc target) (declaration_body_text sc n) Hdel Hann)
    as (Hsame & Hsome).
  specialize (Hsome Hdis).
  destruct (apply_fixes (text sc)
              [mkFix (deleted_span sc stmt) [];
               mkFix (range_of sc target) (declaration_body_text sc n)])
    as [fixed|] eqn:Happ; [|congruence].
  now rewrite (Hsame fixed eq_refl).
Qed.

Lemma fix_applies_when_reference_outside_witness :
  disjoint_ranges (0, 24) (38, 39) = true /\
  apply_fixes (text ex_basic)
    [ mkFix (0, 24) [];
      mkFix (38, 39) (list_ascii_of_string "{ a: string }") ]
  = Some (spec_fixed_text (text ex_basic) (0, 24) (38, 39)
            (list_ascii_of_string "{ a: string }")).
Proof.
  apply (fix_applies_when_reference_outside ex_basic 1 12
           (mkFix (0, 24) [])
           (mkFix (38, 39) (list_ascii_of_string "{ a: string }"))).
  - reflexivity.
  - reflexivity.
  - reflexivity.
  - reflexivity.
  - reflexivity.
Defined.

(* ================================================================== *)
(** * The parameter check: where [true] comes from                      *)
(* ================================================================== *)

(** X14.  On a well-formed tree the inner loop of [isInFunctionParameter]
    returns [true] only when the parent of the annotated node is itself a
    function declaration, function expression or arrow function that lists
    the node among its parameters: the answer [true] never comes from the
    [VariableDeclarator] branch nor from a function further up. *)
Theorem inner_loop_true_at_parent_function sc p :
  wf_ast sc = true ->
  ancestor_loop (List.length (nodes sc)) sc (parent_of sc p) p = Some true ->
  exists f fk ps,
    parent_of sc p = Some f /\
    kind_of sc f = Some fk /\
    function_params fk = Some ps /\
    In p ps /\
    exists fn, get_node sc f = Some fn /\
               ancestor_body sc fn p = Some true.
Proof.
  intros Hwf Hloop.
  destruct (ancestor_loop_true sc p _ _ Hloop)
    as (f & fk & ps & Hf & Hps & Hin).
  pose proof (wf_param_child sc Hwf f fk ps p Hf Hps Hin) as Hpf.
  exists f, fk, ps. repeat split; auto.
  destruct (kind_of_Some_node sc f fk Hf) as (fn & Hfn & Hk).
  exists fn. split; auto.
  unfold ancestor_body. rewrite Hk. apply includes_In in Hin.
  destruct fk; try discriminate; simpl in Hps;
    inversion Hps; subst; now rewrite Hin.
Qed.

Lemma inner_loop_true_at_parent_function_witness :
  exists f fk ps,
    parent_of ex_basic 10 = Some f /\
    kind_of ex_basic f = Some fk /\
    function_params fk = Some ps /\
    In 10 ps /\
    exists fn, get_node ex_basic f = Some fn /\
               ancestor_body ex_basic fn 10 = Some true.
Proof.
  apply (inner_loop_true_at_parent_function ex_basic 10).
  - reflexivity.
  - reflexivity.
Defined.

Lemma isInFunctionParameter_characterised_witness :
  isInFunctionParameter ex_callback 15 = true <->
  exists a, innermost_binding_annotation ex_callback 15 a /\
            annotates_listed_parameter ex_callback a.
Proof.
  apply (isInFunctionParameter_characterised ex_callback).
  - reflexivity.
  - reflexivity.
Defined.

(** The report of [ex_nested_decl] is a candidate that [context.report]
    refuses: the rule makes no report for the file and [Program:exit] does
    not reach its end. *)
Example nested_declaration_report_refused :
  lint ex_nested_decl = mkOutcome [] false.
Proof. reflexivity. Qed.
